(** * Funny Arena: the rating store, the matchmaker and the battle ledger

    A shallow embedding of [app.py].  Python values are modelled as follows.

    - [float] is an IEEE-754 binary64 number: Rocq's primitive [float].  The
      two operations of the Python runtime that the primitive floats lack,
      [x ** y] and [round(x, 1)], are taken as parameters ([pow], [round1]);
      [x ** y] either has a value or raises [OverflowError].
    - [int] (vote counts) is [Z].
    - [dict[str, float]] and [dict[str, int]] of the rating state are
      insertion-ordered dictionaries ([Dict]): order matters for the
      leaderboard (a stable sort) and for the persisted document.
    - [ACTIVE_BATTLES], [JOKES] and [CATEGORY_INDEX] are finite maps ([gmap]).
    - Random draws and the fresh uuid are inputs of the operation ([draws]).
    - An exception is a value of [exn]; a handler's answer is a [response]. *)

From Stdlib Require Import ZArith Floats Lia.
From stdpp Require Import base gmap strings list sorting.

(** ** Order facts on binary64 numbers

    [sorted] compares ratings with [<].  On numbers that are not NaN this is
    a strict total order; the facts below derive what the sort needs from the
    specification of the primitive comparison. *)

Module FloatOrder.

Definition flt (x y : float) : bool := PrimFloat.ltb x y.
Definition fle (x y : float) : bool := PrimFloat.leb x y.
Definition not_nan (x : float) : Prop := PrimFloat.is_nan x = false.

Definition SFle (x y : spec_float) : Prop :=
  SFcompare x y = Some Lt \/ SFcompare x y = Some Eq.

Lemma SFcompare_opp x y :
  SFcompare y x = option_map CompOpp (SFcompare x y).
Proof.
  destruct x as [sx|sx| |sx mx ex], y as [sy|sy| |sy my ey]; simpl;
    try reflexivity; try (destruct sx; reflexivity);
    try (destruct sy; reflexivity);
    try (destruct sx, sy; reflexivity).
  f_equal.
  destruct sx, sy; try reflexivity;
    rewrite (Z.compare_antisym ex ey);
    destruct (ex ?= ey)%Z eqn:He; simpl; try reflexivity;
    change (PosDef.Pos.compare_cont Eq) with Pos.compare;
    rewrite (Pos.compare_antisym mx my);
    destruct (mx ?= my)%positive; reflexivity.
Qed.

Lemma SFcompare_defined x y :
  SFcompare x x <> None -> SFcompare y y <> None -> SFcompare x y <> None.
Proof.
  destruct x as [sx|sx| |sx mx ex], y as [sy|sy| |sy my ey]; simpl; congruence.
Qed.

Lemma SFle_trans x y z : SFle x y -> SFle y z -> SFle x z.
Proof.
  unfold SFle.
  destruct x as [sx|sx| |sx mx ex], y as [sy|sy| |sy my ey],
    z as [sz|sz| |sz mz ez]; simpl;
    try (intros [?|?] [?|?]; congruence);
    try (destruct sx; intros [?|?] [?|?]; try congruence; auto; fail);
    try (destruct sy; intros [?|?] [?|?]; try congruence; auto; fail);
    try (destruct sz; intros [?|?] [?|?]; try congruence; auto; fail);
    try (destruct sx, sy; intros [?|?] [?|?]; try congruence; auto; fail);
    try (destruct sx, sz; intros [?|?] [?|?]; try congruence; auto; fail);
    try (destruct sy, sz; intros [?|?] [?|?]; try congruence; auto; fail);
    try (destruct sx, sy, sz; intros [?|?] [?|?]; try congruence; auto; fail).
  change (PosDef.Pos.compare_cont Eq) with Pos.compare.
  destruct sx, sy, sz; try (intros [?|?] [?|?]; try congruence; auto; fail);
    destruct (Z.compare_spec ex ey), (Z.compare_spec ey ez),
      (Z.compare_spec ex ez); try lia;
    destruct (Pos.compare_spec mx my), (Pos.compare_spec my mz),
      (Pos.compare_spec mx mz); simpl; try lia;
    intros [?|?] [?|?]; try congruence; auto.
Qed.

Lemma not_nan_compare x : not_nan x -> SFcompare (Prim2SF x) (Prim2SF x) <> None.
Proof.
  unfold not_nan, PrimFloat.is_nan. rewrite FloatAxioms.eqb_spec.
  unfold SFeqb. destruct (SFcompare _ _); simpl; congruence.
Qed.

Lemma fle_SFle x y : fle x y = true <-> SFle (Prim2SF x) (Prim2SF y).
Proof.
  unfold fle, SFle. rewrite leb_spec. unfold SFleb.
  destruct (SFcompare _ _) as [[]|]; split; intros H;
    try reflexivity; try discriminate; auto; destruct H; discriminate.
Qed.

(** [x < y] is false exactly when [y <= x], away from NaN. *)
Lemma flt_false_fle x y :
  not_nan x -> not_nan y -> flt x y = false -> fle y x = true.
Proof.
  intros Hx Hy. unfold flt, fle. rewrite ltb_spec, leb_spec.
  unfold SFltb, SFleb. rewrite (SFcompare_opp (Prim2SF x) (Prim2SF y)).
  pose proof (SFcompare_defined _ _ (not_nan_compare x Hx) (not_nan_compare y Hy)).
  destruct (SFcompare (Prim2SF x) (Prim2SF y)) as [[]|]; simpl; congruence.
Qed.

Lemma flt_true_fle x y : flt x y = true -> fle x y = true.
Proof.
  unfold flt, fle. rewrite ltb_spec, leb_spec. unfold SFltb, SFleb.
  destruct (SFcompare _ _) as [[]|]; congruence.
Qed.

Lemma fle_trans x y z : fle x y = true -> fle y z = true -> fle x z = true.
Proof. rewrite !fle_SFle. apply SFle_trans. Qed.

Lemma fle_not_flt x y : fle x y = true -> flt y x = false.
Proof.
  unfold flt, fle. rewrite ltb_spec, leb_spec. unfold SFltb, SFleb.
  rewrite (SFcompare_opp (Prim2SF x) (Prim2SF y)).
  destruct (SFcompare (Prim2SF x) (Prim2SF y)) as [[]|]; simpl; congruence.
Qed.

End FloatOrder.

(** ** Insertion-ordered dictionaries

    A Python [dict] keeps its keys in insertion order; assigning to a key
    that is present keeps its position, assigning to a new key appends. *)

Module Dict.

Section Ops.
Context {V : Type}.

(** [d.get(k)] *)
Fixpoint get (d : list (string * V)) (k : string) : option V :=
  match d with
  | [] => None
  | (k', v) :: d' => if String.eqb k' k then Some v else get d' k
  end.

(** [d[k] = v] *)
Fixpoint set (d : list (string * V)) (k : string) (v : V) : list (string * V) :=
  match d with
  | [] => [(k, v)]
  | (k', v') :: d' =>
      if String.eqb k' k then (k', v) :: d' else (k', v') :: set d' k v
  end.

(** [d.setdefault(k, v)] (the returned value is not used by the program) *)
Definition setdefault (d : list (string * V)) (k : string) (v : V)
  : list (string * V) :=
  match get d k with
  | Some _ => d
  | None => d ++ [(k, v)]
  end.

(** [list(d.keys())] *)
Definition keys (d : list (string * V)) : list string := map fst d.

Lemma get_set_eq d k v : get (set d k v) k = Some v.
Proof.
  induction d as [|[k' v'] d IH]; simpl.
  - now rewrite String.eqb_refl.
  - destruct (String.eqb k' k) eqn:E; simpl; rewrite E; auto.
Qed.

Lemma get_set_ne d k k' v : k <> k' -> get (set d k v) k' = get d k'.
Proof.
  intros Hne. induction d as [|[k0 v0] d IH]; simpl.
  - destruct (String.eqb_spec k k'); congruence.
  - destruct (String.eqb_spec k0 k) as [->|]; simpl.
    + destruct (String.eqb_spec k k'); congruence.
    + destruct (String.eqb_spec k0 k'); auto.
Qed.

Lemma get_set_is_Some d k v k' :
  is_Some (get d k') -> is_Some (get (set d k v) k').
Proof.
  intros H. destruct (String.eqb_spec k k') as [->|Hne].
  - rewrite get_set_eq. eauto.
  - now rewrite get_set_ne.
Qed.

Lemma keys_set_present d k v :
  is_Some (get d k) -> keys (set d k v) = keys d.
Proof.
  induction d as [|[k0 v0] d IH]; simpl.
  - intros [? ?]; discriminate.
  - destruct (String.eqb_spec k0 k) as [->|]; simpl; intros H.
    + reflexivity.
    + f_equal. now apply IH.
Qed.

Lemma get_app d1 d2 k :
  get (d1 ++ d2) k = match get d1 k with Some v => Some v | None => get d2 k end.
Proof.
  induction d1 as [|[k0 v0] d1 IH]; simpl; auto.
  destruct (String.eqb k0 k); auto.
Qed.

Lemma get_setdefault_eq d k v :
  get (setdefault d k v) k = Some (default v (get d k)).
Proof.
  unfold setdefault. destruct (get d k) eqn:E; simpl; auto.
  rewrite get_app, E. simpl. now rewrite String.eqb_refl.
Qed.

Lemma get_setdefault_ne d k k' v :
  k <> k' -> get (setdefault d k v) k' = get d k'.
Proof.
  intros Hne. unfold setdefault. destruct (get d k) eqn:E; auto.
  rewrite get_app. destruct (get d k'); auto. simpl.
  destruct (String.eqb_spec k k'); congruence.
Qed.

Lemma setdefault_present d k v : is_Some (get d k) -> setdefault d k v = d.
Proof. intros [x Hx]. unfold setdefault. now rewrite Hx. Qed.

Lemma get_Some_elem d k v : get d k = Some v -> (k, v) ∈ d.
Proof.
  induction d as [|[k0 v0] d IH]; simpl; [discriminate|].
  destruct (String.eqb_spec k0 k) as [->|].
  - intros [= ->]. left.
  - intros H. right. auto.
Qed.

Lemma get_None_keys d k : get d k = None <-> k ∉ keys d.
Proof.
  induction d as [|[k0 v0] d IH]; simpl.
  - split; [intros _; apply not_elem_of_nil | reflexivity].
  - rewrite not_elem_of_cons.
    destruct (String.eqb_spec k0 k) as [->|].
    + split; [discriminate | intros [? _]; congruence].
    + rewrite IH. split; [intros; split; congruence | tauto].
Qed.

Lemma elem_get_NoDup d k v : NoDup (keys d) -> (k, v) ∈ d -> get d k = Some v.
Proof.
  induction d as [|[k0 v0] d IH]; simpl.
  - intros _ H. inversion H.
  - rewrite NoDup_cons, elem_of_cons. intros [Hk0 Hnd] [[= -> ->]|Hin].
    + now rewrite String.eqb_refl.
    + destruct (String.eqb_spec k0 k) as [->|]; auto.
      exfalso. apply Hk0. unfold keys.
      apply list_elem_of_fmap. exists (k, v). auto.
Qed.
End Ops.

End Dict.

(** ** Exceptions and results *)

Inductive exn :=
| NoEligibleCategory      (* RuntimeError("No overlapping joke categories ...") *)
| KeyError (key : string) (* [d[key]] on a dictionary without [key] *)
| KeyError_pop_empty_set  (* [set().pop()] *)
| IndexError              (* [random.choice] of an empty sequence *)
| ValueError              (* [random.sample] larger than the population *)
| OverflowError.          (* [x ** y] out of the range of a float *)

Inductive result (A : Type) :=
| Ok (a : A)
| Raise (e : exn).
Arguments Ok {A} a.
Arguments Raise {A} e.

#[global] Instance result_ret : MRet result := fun A a => Ok a.
#[global] Instance result_bind : MBind result := fun A B f r =>
  match r with
  | Ok a => f a
  | Raise e => Raise e
  end.

(** [d[k]] on a finite map and on an ordered dictionary *)
Definition map_index {V} (d : gmap string V) (k : string) : result V :=
  match d !! k with
  | Some v => Ok v
  | None => Raise (KeyError k)
  end.

Definition dict_index {V} (d : list (string * V)) (k : string) : result V :=
  match Dict.get d k with
  | Some v => Ok v
  | None => Raise (KeyError k)
  end.

(** ** Data *)

(** [class EloState(TypedDict)] *)
Record EloState := mkEloState {
  elos : list (string * float);
  votes : list (string * Z);
  total_votes : Z
}.

(** What [json.load] reads from [elo_state.json], seen through the types of
    [EloState]: an object with an ["elos"] key (and, optionally, ["votes"] and
    ["total_votes"]), or an object without one, which the loader takes for
    the ratings map itself. *)
Inductive document :=
| LegacyDoc (ratings : list (string * float))
| StateDoc (doc_elos : list (string * float))
           (doc_votes : option (list (string * Z)))
           (doc_total_votes : option Z).

(** A row of the leaderboard: [{"rank", "model", "elo", "votes"}] *)
Record entry := mkEntry {
  entry_rank : nat;
  entry_model : string;
  entry_elo : float;
  entry_votes : Z
}.

(** A value of [ACTIVE_BATTLES]: [{"winner": None, "model_a", "model_b"}] *)
Record battle := mkBattle {
  battle_winner : option string;
  model_a : string;
  model_b : string
}.

(** [{"id", "joke", "rank"}]; [contestant_rank = None] is the ["-"] sentinel *)
Record contestant := mkContestant {
  contestant_id : string;
  contestant_joke : string;
  contestant_rank : option nat
}.

(** What [select_battle] returns *)
Record comparison := mkComparison {
  battle_id : string;
  category : string;
  contestants : list contestant
}.

(** The outcome of the calls to [random] and [uuid] inside one
    [select_battle]: each draw is reduced modulo the size of what is drawn
    from, so every natural number is a legal draw. *)
Record draws := mkDraws {
  draw_category : nat;
  draw_first : nat;
  draw_second : nat;
  draw_joke_a : nat;
  draw_joke_b : nat;
  uuid4 : string
}.

(** The mutable state of the service: the ledger of pending battles (in
    memory) and the rating file ([None] when [ELO_FILE] does not exist). *)
Record system := mkSystem {
  ACTIVE_BATTLES : gmap string battle;
  ELO_FILE : option document
}.

(** The client errors of [api_battle_result] (status 400) *)
Inductive api_error :=
| MissingField   (* "battle_id and winner are required." *)
| UnknownToken   (* "Battle expired or unknown." *)
| InvalidWinner. (* "Winner must be part of the battle." *)

Inductive response :=
| RespLeaderboard (leaderboard : list entry) (total : Z)
| RespBattle (c : comparison)
| RespError (e : api_error)
| RespException (e : exn).

(** [random.choice(seq)] *)
Definition choice {A} (seq : list A) (draw : nat) : result A :=
  match seq !! (draw mod length seq) with
  | Some x => Ok x
  | None => Raise IndexError
  end.

(** [random.sample(population, 2)]: the elements at two distinct positions.
    As in CPython, the first position is drawn among all of them, the last
    element then takes the place of the one drawn, and the second position is
    drawn among the first [n - 1] places of that pool.  Every ordered pair
    of distinct positions is the outcome of some draws ([sample2_complete]
    below), so nothing [random.sample] can return is left out. *)
Definition sample2 {A} (population : list A) (draw1 draw2 : nat) : result (A * A) :=
  let n := length population in
  if decide (n < 2) then Raise ValueError
  else
    let i := draw1 mod n in
    match population !! i, population !! (n - 1) with
    | Some a, Some z =>
        match <[i := z]> population !! (draw2 mod (n - 1)) with
        | Some b => Ok (a, b)
        | None => Raise IndexError
        end
    | _, _ => Raise IndexError
    end.

(** The truth value of a request field: absent and empty are both false. *)
Definition falsy (field : option string) : bool :=
  match field with
  | None => true
  | Some s => bool_decide (s = "")
  end.

(** ** The program *)

Section Arena.

(** [MODELS = _load_models()] and [JOKES = _load_jokes()]: read once at
    start-up from [models.csv] and [jokes.json]. *)
Variable MODELS : list string.
Variable JOKES : gmap string (gmap string (list string)).

(** Python's [x ** y] on floats: its value, or [None] when it raises
    [OverflowError] (the result is finite but too large for a float, as
    [10 ** 309.0] is); and [round(x, 1)]. *)
Variable pow : float -> float -> option float.
Variable round1 : float -> float.

(** *** Category index *)

(** The body of the inner loop of [_build_category_index]:
    [if jokes: index.setdefault(category, []).append(model)] *)
Definition index_append (model category : string) (jokes : list string)
    (index : gmap string (list string)) : gmap string (list string) :=
  match jokes with
  | [] => index
  | _ :: _ => <[category := default [] (index !! category) ++ [model]]> index
  end.

Definition index_of_model (index : gmap string (list string)) (model : string)
    : gmap string (list string) :=
  map_fold (index_append model) index (default ∅ (JOKES !! model)).

Definition _build_category_index : gmap string (list string) :=
  filter (fun item => 2 <= length item.2) (foldl index_of_model ∅ MODELS).

Definition CATEGORY_INDEX : gmap string (list string) := _build_category_index.

(** *** Rating store *)

(** The loop [for model in MODELS: elos.setdefault(model, 1500.0);
    votes.setdefault(model, 0)] *)
Definition backfill (ev : list (string * float) * list (string * Z))
    (model : string) : list (string * float) * list (string * Z) :=
  (Dict.setdefault ev.1 model 1500%float, Dict.setdefault ev.2 model 0%Z).

Definition _load_state (file : option document) : EloState :=
  let stored := default (LegacyDoc []) file in
  let '(elos, votes, total_votes) :=
    match stored with
    | StateDoc elos votes total_votes =>
        (elos, default [] votes, default 0%Z total_votes)
    | LegacyDoc ratings => (ratings, [], 0%Z)
    end in
  let '(elos, votes) := foldl backfill (elos, votes) MODELS in
  {| elos := elos; votes := votes; total_votes := total_votes |}.

(** [json.dump(state, handle)] *)
Definition _save_state (state : EloState) : document :=
  StateDoc (elos state) (Some (votes state)) (Some (total_votes state)).

(** The guard of [read_state] and [update_state] makes each of them one
    atomic step on the file; the steps of this model are atomic. *)
Definition read_state (file : option document) : EloState := _load_state file.

(** [mutator] changes the state in place and returns a value: here it
    returns both.  When it raises, [_save_state] is not reached. *)
Definition update_state {T} (mutator : EloState -> result (EloState * T))
    (file : option document) : result (EloState * T) * option document :=
  let state := _load_state file in
  match mutator state with
  | Ok (state', r) => (Ok (state', r), Some (_save_state state'))
  | Raise e => (Raise e, file)
  end.

(** *** Leaderboard *)

(** [sorted(items, key=lambda item: item[1], reverse=True)] is CPython's
    [list.sort] (as of CPython 3.11) applied to the reversed list, the
    result reversed again; ratings are compared with [<] only.  On a list
    of fewer than 64 items [list.sort] takes the run the list starts with
    (ascending, or strictly descending and then reversed) and puts every
    later item into it by binary search; this is what is modelled, for
    every length.  On a longer list CPython cuts several runs and merges
    them: the list it returns is the same one whenever [<] orders the
    ratings (none is NaN), since a stable sort has one result then. *)

(** [item[1] < other[1]]: the one comparison the sort makes *)
Definition item_lt (x y : string * float) : bool := FloatOrder.flt x.2 y.2.

(** [count_run], the loop of the ascending case: the items that follow
    [prev] for as long as none is below the one before it, and the others. *)
Fixpoint ascending_run (prev : string * float) (l : list (string * float))
    : list (string * float) * list (string * float) :=
  match l with
  | [] => ([], [])
  | x :: l' =>
      if item_lt x prev then ([], l)
      else let '(run, rest) := ascending_run x l' in (x :: run, rest)
  end.

(** [count_run], the loop of the descending case: for as long as each
    item is below the one before it. *)
Fixpoint descending_run (prev : string * float) (l : list (string * float))
    : list (string * float) * list (string * float) :=
  match l with
  | [] => ([], [])
  | x :: l' =>
      if item_lt x prev
      then let '(run, rest) := descending_run x l' in (x :: run, rest)
      else ([], l)
  end.

(** [count_run], and the reversal of a descending run: the run the list
    starts with, in ascending order, and the items after it. *)
Definition count_run (l : list (string * float))
    : list (string * float) * list (string * float) :=
  match l with
  | [] => ([], [])
  | x :: l' =>
      match l' with
      | [] => ([x], [])
      | y :: _ =>
          if item_lt y x
          then let '(run, rest) := descending_run x l' in (reverse (x :: run), rest)
          else let '(run, rest) := ascending_run x l' in (x :: run, rest)
      end
  end.

(** [binarysort], the inner loop: the place of [pivot] in the run [a],
    looked for between [l] and [r].  Each round halves the distance, so
    [length a] rounds are enough ([bisect_fuel]). *)
Fixpoint bisect (fuel : nat) (a : list (string * float)) (pivot : string * float)
    (l r : nat) : nat :=
  match fuel with
  | O => l
  | S fuel =>
      if decide (l < r)%nat then
        let p := (l + (r - l) / 2)%nat in
        match a !! p with
        | Some y =>
            if item_lt pivot y then bisect fuel a pivot l p
            else bisect fuel a pivot (S p) r
        | None => l
        end
      else l
  end.

(** [binarysort], one round of the outer loop: [pivot] is put at its place. *)
Definition binary_insert (a : list (string * float)) (pivot : string * float)
    : list (string * float) :=
  let l := bisect (length a) a pivot 0 (length a) in
  take l a ++ pivot :: drop l a.

Definition binarysort (run rest : list (string * float)) : list (string * float) :=
  foldl binary_insert run rest.

(** [list.sort()], ascending *)
Definition list_sort (l : list (string * float)) : list (string * float) :=
  let '(run, rest) := count_run l in binarysort run rest.

(** [sorted(items, key=lambda item: item[1], reverse=True)] *)
Definition sorted_desc (items : list (string * float)) : list (string * float) :=
  reverse (list_sort (reverse items)).

Definition build_leaderboard (elos : list (string * float))
    (votes : list (string * Z)) : list entry :=
  let ordered := sorted_desc elos in
  imap (fun position item =>
          {| entry_rank := S position;
             entry_model := item.1;
             entry_elo := round1 item.2;
             entry_votes := default 0%Z (Dict.get votes item.1) |})
       ordered.

(** *** Rating engine *)

(** [x ** y] as an expression of the program *)
Definition float_pow (x y : float) : result float :=
  match pow x y with
  | Some v => Ok v
  | None => Raise OverflowError
  end.

Definition elo_update (elos : list (string * float)) (winner loser : string)
    (k : float) : result (list (string * float)) :=
  winner_rating ← dict_index elos winner;
  loser_rating ← dict_index elos loser;
  power_winner ← float_pow 10 ((loser_rating - winner_rating) / 400);
  let expected_winner := (1 / (1 + power_winner))%float in
  power_loser ← float_pow 10 ((winner_rating - loser_rating) / 400);
  let expected_loser := (1 / (1 + power_loser))%float in
  let elos := Dict.set elos winner (winner_rating + k * (1 - expected_winner))%float in
  let elos := Dict.set elos loser (loser_rating + k * (0 - expected_loser))%float in
  Ok elos.

Definition _record_battle_result (state : EloState) (winner loser : string)
    : result (EloState * list entry) :=
  elos' ← elo_update (elos state) winner loser 32%float;
  let votes' :=
    Dict.set (votes state) winner (default 0 (Dict.get (votes state) winner) + 1)%Z in
  let state' :=
    {| elos := elos'; votes := votes'; total_votes := (total_votes state + 1)%Z |} in
  Ok (state', build_leaderboard (elos state') (votes state')).

(** *** Matchmaker *)

(** [{entry["model"]: entry["rank"] for entry in leaderboard}] *)
Definition rank_lookup_of (leaderboard : list entry) : list (string * nat) :=
  foldl (fun d e => Dict.set d (entry_model e) (entry_rank e)) [] leaderboard.

(** One turn of the loop [for model in (model_a, model_b)] *)
Definition make_contestant (rank_lookup : list (string * nat))
    (category model : string) (draw : nat) : result contestant :=
  by_category ← map_index JOKES model;
  jokes ← map_index by_category category;
  joke ← choice jokes draw;
  Ok {| contestant_id := model;
        contestant_joke := joke;
        contestant_rank := Dict.get rank_lookup model |}.

Definition select_battle (r : draws) (s : system) : result comparison * system :=
  if decide (CATEGORY_INDEX = ∅) then (Raise NoEligibleCategory, s)
  else
    let state := read_state (ELO_FILE s) in
    let leaderboard := build_leaderboard (elos state) (votes state) in
    let rank_lookup := rank_lookup_of leaderboard in
    let chosen :=
      category ← choice (map_to_list CATEGORY_INDEX).*1 (draw_category r);
      models ← map_index CATEGORY_INDEX category;
      '(model_a, model_b) ← sample2 models (draw_first r) (draw_second r);
      first ← make_contestant rank_lookup category model_a (draw_joke_a r);
      second ← make_contestant rank_lookup category model_b (draw_joke_b r);
      Ok (category, model_a, model_b, [first; second]) in
    match chosen with
    | Raise e => (Raise e, s)
    | Ok (category, model_a, model_b, contestants) =>
        let battle_id := uuid4 r in
        let pending :=
          {| battle_winner := None; model_a := model_a; model_b := model_b |} in
        (Ok {| battle_id := battle_id; category := category;
               contestants := contestants |},
         {| ACTIVE_BATTLES := <[battle_id := pending]> (ACTIVE_BATTLES s);
            ELO_FILE := ELO_FILE s |})
    end.

(** *** Handlers *)

Definition api_leaderboard (s : system) : response * system :=
  let state := read_state (ELO_FILE s) in
  (RespLeaderboard (build_leaderboard (elos state) (votes state))
                   (total_votes state), s).

Definition api_battle (r : draws) (s : system) : response * system :=
  match select_battle r s with
  | (Ok c, s') => (RespBattle c, s')
  | (Raise e, s') => (RespException e, s')
  end.

(** The block [with lock: ...] of [api_battle_result] and the response
    built from its outcome: the protocol of the battle ledger. *)
Definition submit_result (token winner : string) (s : system)
    : response * system :=
  match ACTIVE_BATTLES s !! token with
  | None => (RespError UnknownToken, s)
  | Some battle =>
      let ledger := delete token (ACTIVE_BATTLES s) in
      let contenders : gset string := {[ model_a battle; model_b battle ]} in
      if decide (winner ∉ contenders)
      then (RespError InvalidWinner,
            {| ACTIVE_BATTLES := ledger; ELO_FILE := ELO_FILE s |})
      else
        match elements (contenders ∖ {[ winner ]}) with
        | [] => (RespException KeyError_pop_empty_set,
                 {| ACTIVE_BATTLES := ledger; ELO_FILE := ELO_FILE s |})
        | loser :: _ =>
            match update_state
                    (fun elo_state => _record_battle_result elo_state winner loser)
                    (ELO_FILE s) with
            | (Ok (state, leaderboard), file) =>
                (RespLeaderboard leaderboard (total_votes state),
                 {| ACTIVE_BATTLES := ledger; ELO_FILE := file |})
            | (Raise e, file) =>
                (RespException e,
                 {| ACTIVE_BATTLES := ledger; ELO_FILE := file |})
            end
        end
  end.

(** [api_battle_result], from the two fields of the request payload *)
Definition api_battle_result (battle_id winner : option string) (s : system)
    : response * system :=
  if falsy battle_id || falsy winner then (RespError MissingField, s)
  else submit_result (default "" battle_id) (default "" winner) s.

(** *** Runs of the service *)

Inductive request :=
| GetLeaderboard
| GetBattle (r : draws)
| PostBattleResult (battle_id winner : option string).

Definition handle (q : request) (s : system) : response * system :=
  match q with
  | GetLeaderboard => api_leaderboard s
  | GetBattle r => api_battle r s
  | PostBattleResult battle_id winner => api_battle_result battle_id winner s
  end.

(** The responses of a sequence of requests, and the state they leave. *)
Fixpoint run (qs : list request) (s : system) : list response * system :=
  match qs with
  | [] => ([], s)
  | q :: qs' =>
      let '(resp, s') := handle q s in
      let '(resps, s'') := run qs' s' in
      (resp :: resps, s'')
  end.

(** ** Facts about the leaderboard *)

Lemma ascending_run_app prev l run rest :
  ascending_run prev l = (run, rest) -> l = run ++ rest.
Proof.
  revert prev run rest. induction l as [|x l IH]; simpl; intros prev run rest H.
  - now inversion H.
  - destruct (item_lt x prev); [now inversion H|].
    destruct (ascending_run x l) as [run' rest'] eqn:E. inversion H; subst.
    simpl. f_equal. eapply IH, E.
Qed.

Lemma descending_run_app prev l run rest :
  descending_run prev l = (run, rest) -> l = run ++ rest.
Proof.
  revert prev run rest. induction l as [|x l IH]; simpl; intros prev run rest H.
  - now inversion H.
  - destruct (item_lt x prev); [|now inversion H].
    destruct (descending_run x l) as [run' rest'] eqn:E. inversion H; subst.
    simpl. f_equal. eapply IH, E.
Qed.

Lemma count_run_perm l run rest :
  count_run l = (run, rest) -> run ++ rest ≡ₚ l.
Proof.
  destruct l as [|x [|y l]]; simpl; intros H; try (inversion H; reflexivity).
  destruct (item_lt y x).
  - destruct (descending_run y l) as [run' rest'] eqn:E. inversion H; subst.
    apply descending_run_app in E. rewrite E, reverse_Permutation. reflexivity.
  - destruct (ascending_run y l) as [run' rest'] eqn:E. inversion H; subst.
    apply ascending_run_app in E. now rewrite E.
Qed.

Lemma binary_insert_perm a pivot : binary_insert a pivot ≡ₚ pivot :: a.
Proof.
  unfold binary_insert. rewrite <- Permutation_middle. now rewrite take_drop.
Qed.

Lemma binarysort_perm run rest : binarysort run rest ≡ₚ run ++ rest.
Proof.
  unfold binarysort. revert run. induction rest as [|x rest IH]; intros run; simpl.
  - now rewrite app_nil_r.
  - rewrite IH, binary_insert_perm. now rewrite <- Permutation_middle.
Qed.

Lemma list_sort_perm l : list_sort l ≡ₚ l.
Proof.
  unfold list_sort. destruct (count_run l) as [run rest] eqn:E.
  rewrite binarysort_perm. eapply count_run_perm, E.
Qed.

Lemma sorted_desc_perm items : sorted_desc items ≡ₚ items.
Proof.
  unfold sorted_desc. now rewrite reverse_Permutation, list_sort_perm, reverse_Permutation.
Qed.

Lemma sorted_desc_length items : length (sorted_desc items) = length items.
Proof. apply Permutation_length, sorted_desc_perm. Qed.

(** [ge_rating x y]: [x] may stand before [y] in descending order. *)
Definition ge_rating (x y : string * float) : Prop :=
  FloatOrder.fle y.2 x.2 = true.

(** [le_rating x y]: [x] may stand before [y] in ascending order. *)
Definition le_rating (x y : string * float) : Prop :=
  FloatOrder.fle x.2 y.2 = true.

#[local] Instance le_rating_trans : Transitive le_rating.
Proof. intros x y z. apply FloatOrder.fle_trans. Qed.

#[local] Instance ge_rating_trans : Transitive ge_rating.
Proof. intros x y z Hxy Hyz. eapply FloatOrder.fle_trans; eassumption. Qed.

Lemma StronglySorted_reverse {A} (R : relation A) l :
  StronglySorted R l -> StronglySorted (flip R) (reverse l).
Proof.
  induction 1 as [|x l Hs IH Hx]; [constructor|].
  rewrite reverse_cons. apply StronglySorted_app_2; [|assumption|repeat constructor].
  intros y z Hy Hz. apply list_elem_of_singleton in Hz as ->.
  rewrite elem_of_reverse in Hy. rewrite Forall_forall in Hx. unfold flip. now apply Hx.
Qed.

Lemma ascending_run_sorted prev l run rest :
  Forall (fun y => FloatOrder.not_nan y.2) (prev :: l) ->
  ascending_run prev l = (run, rest) -> Sorted le_rating (prev :: run).
Proof.
  revert prev run rest. induction l as [|x l IH]; simpl; intros prev run rest Hn H.
  - inversion H. repeat constructor.
  - apply Forall_cons in Hn as [Hp Hn].
    destruct (item_lt x prev) eqn:Elt; [inversion H; repeat constructor|].
    destruct (ascending_run x l) as [run' rest'] eqn:E. inversion H; subst.
    constructor; [eapply IH; eassumption|]. constructor.
    apply Forall_cons in Hn as [Hx _].
    now apply FloatOrder.flt_false_fle.
Qed.

Lemma descending_run_sorted prev l run rest :
  descending_run prev l = (run, rest) -> Sorted ge_rating (prev :: run).
Proof.
  revert prev run rest. induction l as [|x l IH]; simpl; intros prev run rest H.
  - inversion H. repeat constructor.
  - destruct (item_lt x prev) eqn:Elt; [|inversion H; repeat constructor].
    destruct (descending_run x l) as [run' rest'] eqn:E. inversion H; subst.
    constructor; [eapply IH; eassumption|]. constructor.
    now apply FloatOrder.flt_true_fle.
Qed.

Lemma count_run_sorted l run rest :
  Forall (fun y => FloatOrder.not_nan y.2) l -> count_run l = (run, rest) -> StronglySorted le_rating run.
Proof.
  destruct l as [|x [|y l]]; simpl; intros Hn H;
    try (inversion H; repeat constructor; fail).
  destruct (item_lt y x) eqn:Elt.
  - destruct (descending_run y l) as [run' rest'] eqn:E. injection H as <- <-.
    assert (Hd : Sorted ge_rating (x :: y :: run')).
    { apply (descending_run_sorted x (y :: l) (y :: run') rest').
      simpl. now rewrite Elt, E. }
    apply Sorted_StronglySorted in Hd; [|apply _].
    exact (StronglySorted_reverse ge_rating _ Hd).
  - destruct (ascending_run y l) as [run' rest'] eqn:E. injection H as <- <-.
    apply Sorted_StronglySorted; [apply _|].
    apply (ascending_run_sorted x (y :: l) (y :: run') rest'); [assumption|].
    simpl. now rewrite Elt, E.
Qed.

(** The binary search needs no more rounds than the distance it starts
    with, and every item it reads is there. *)
Lemma bisect_fuel a pivot fuel fuel' l r :
  (r <= length a)%nat -> (r - l <= fuel)%nat -> (r - l <= fuel')%nat ->
  bisect fuel a pivot l r = bisect fuel' a pivot l r.
Proof.
  revert fuel' l r. induction fuel as [|fuel IH]; intros fuel' l r Hr Hf Hf'.
  - destruct fuel' as [|fuel']; [reflexivity|]. cbn [bisect].
    destruct (decide (l < r)%nat); [lia|reflexivity].
  - cbn [bisect]. destruct (decide (l < r)%nat) as [Hlt|Hge].
    2:{ destruct fuel' as [|fuel']; [reflexivity|]. cbn [bisect].
        destruct (decide (l < r)%nat); [lia|reflexivity]. }
    destruct fuel' as [|fuel']; [lia|]. cbn [bisect].
    destruct (decide (l < r)%nat); [|lia].
    pose proof (Nat.div_lt (r - l) 2).
    destruct (lookup_lt_is_Some_2 a (l + (r - l) / 2)) as [y Hy]; [lia|].
    rewrite Hy. destruct (item_lt pivot y); apply IH; lia.
Qed.

Lemma StronglySorted_lookup {A} (R : relation A) l i j x y :
  StronglySorted R l -> (i < j)%nat ->
  l !! i = Some x -> l !! j = Some y -> R x y.
Proof.
  intros Hs. revert i j. induction Hs as [|z l Hs IH Hz]; intros i j Hij Hi Hj.
  - discriminate.
  - destruct j as [|j]; [lia|]. simpl in Hj. destruct i as [|i]; simpl in Hi.
    + inversion Hi; subst. rewrite Forall_forall in Hz.
      eapply Hz, list_elem_of_lookup_2, Hj.
    + eapply (IH i j); [lia|assumption..].
Qed.

(** On a sorted run the binary search ends where the pivot belongs: after
    every item that is not above it, before the others. *)
Lemma bisect_spec a pivot fuel l r :
  StronglySorted le_rating a -> Forall (fun y => FloatOrder.not_nan y.2) a -> FloatOrder.not_nan pivot.2 ->
  (l <= r)%nat -> (r <= length a)%nat -> (r - l <= fuel)%nat ->
  (forall i y, a !! i = Some y -> (i < l)%nat -> le_rating y pivot) ->
  (forall i y, a !! i = Some y -> (r <= i)%nat -> le_rating pivot y) ->
  let k := bisect fuel a pivot l r in
  (forall i y, a !! i = Some y -> (i < k)%nat -> le_rating y pivot) /\
  (forall i y, a !! i = Some y -> (k <= i)%nat -> le_rating pivot y).
Proof.
  intros Hs Hn Hp. revert l r.
  induction fuel as [|fuel IH]; intros l r Hlr Hr Hf Hlo Hhi; cbv zeta; cbn [bisect].
  - assert (l = r) by lia. subst. split; assumption.
  - destruct (decide (l < r)%nat) as [Hlt|Hge].
    2:{ assert (l = r) by lia. subst. split; assumption. }
    set (p := (l + (r - l) / 2)%nat).
    assert (Hp1 : (l <= p)%nat) by (unfold p; lia).
    assert (Hp2 : (p < r)%nat).
    { unfold p. pose proof (Nat.div_lt (r - l) 2). lia. }
    destruct (lookup_lt_is_Some_2 a p) as [y Hy]; [lia|]. rewrite Hy.
    assert (Hny : FloatOrder.not_nan y.2)
      by (eapply (Forall_lookup_1 (fun y => FloatOrder.not_nan y.2)); eassumption).
    destruct (item_lt pivot y) eqn:Elt.
    + apply IH; [lia..|assumption|].
      intros i z Hz Hi. destruct (decide (i = p)) as [->|Hne].
      * rewrite Hy in Hz. inversion Hz; subst.
        now apply FloatOrder.flt_true_fle.
      * transitivity y; [now apply FloatOrder.flt_true_fle|].
        eapply (StronglySorted_lookup le_rating a p i); [assumption|lia|assumption..].
    + apply IH; [lia..| |assumption].
      intros i z Hz Hi. destruct (decide (i = p)) as [->|Hne].
      * rewrite Hy in Hz. inversion Hz; subst.
        now apply FloatOrder.flt_false_fle.
      * transitivity y; [|now apply FloatOrder.flt_false_fle].
        eapply (StronglySorted_lookup le_rating a i p); [assumption|lia|assumption..].
Qed.

Lemma binary_insert_sorted a pivot :
  StronglySorted le_rating a -> Forall (fun y => FloatOrder.not_nan y.2) a -> FloatOrder.not_nan pivot.2 ->
  StronglySorted le_rating (binary_insert a pivot).
Proof.
  intros Hs Hn Hp. unfold binary_insert.
  destruct (bisect_spec a pivot (length a) 0 (length a)) as [Hlo Hhi];
    try assumption; try lia.
  { intros i y Hy Hi.
    apply lookup_lt_Some in Hy. lia. }
  set (k := bisect (length a) a pivot 0 (length a)) in *.
  pose proof Hs as Hs'. rewrite <- (take_drop k a) in Hs'.
  apply StronglySorted_app_2.
  - intros x1 x2 H1 H2. apply elem_of_take in H1 as (i & Hi & Hik).
    apply elem_of_cons in H2 as [->|H2]; [eapply Hlo; eassumption|].
    apply list_elem_of_lookup_1 in H2 as [j Hj]. rewrite lookup_drop in Hj.
    eapply (StronglySorted_lookup le_rating a i (k + j)); [assumption|lia|assumption..].
  - eapply StronglySorted_app_1_l, Hs'.
  - constructor; [eapply StronglySorted_app_1_r, Hs'|].
    apply Forall_forall. intros x2 H2.
    apply list_elem_of_lookup_1 in H2 as [j Hj]. rewrite lookup_drop in Hj.
    eapply Hhi; [eassumption|lia].
Qed.

Lemma binarysort_sorted run rest :
  StronglySorted le_rating run -> Forall (fun y => FloatOrder.not_nan y.2) run -> Forall (fun y => FloatOrder.not_nan y.2) rest ->
  StronglySorted le_rating (binarysort run rest).
Proof.
  unfold binarysort. revert run.
  induction rest as [|x rest IH]; intros run Hs Hn Hr; simpl; [assumption|].
  apply Forall_cons in Hr as [Hx Hr].
  apply IH; [now apply binary_insert_sorted| |assumption].
  rewrite binary_insert_perm. now constructor.
Qed.

Lemma list_sort_sorted l :
  Forall (fun y => FloatOrder.not_nan y.2) l -> StronglySorted le_rating (list_sort l).
Proof.
  intros Hn. unfold list_sort. destruct (count_run l) as [run rest] eqn:E.
  pose proof (count_run_perm _ _ _ E) as Hperm.
  rewrite <- Hperm in Hn. apply Forall_app in Hn as [Hrun Hrest].
  apply binarysort_sorted; [|assumption..].
  eapply count_run_sorted; [|exact E]. rewrite <- Hperm.
  apply Forall_app; now split.
Qed.

Lemma sorted_desc_sorted items :
  Forall (fun y => FloatOrder.not_nan y.2) items ->
  StronglySorted ge_rating (sorted_desc items).
Proof.
  intros Hn. unfold sorted_desc.
  apply (StronglySorted_reverse le_rating), list_sort_sorted.
  now rewrite reverse_Permutation.
Qed.

Lemma ascending_run_all prev l :
  StronglySorted le_rating (prev :: l) -> ascending_run prev l = (l, []).
Proof.
  revert prev. induction l as [|x l IH]; intros prev Hs; simpl; [reflexivity|].
  apply StronglySorted_cons in Hs as [Hp Hs].
  apply Forall_cons in Hp as [Hpx _].
  unfold item_lt. rewrite (FloatOrder.fle_not_flt _ _ Hpx).
  now rewrite (IH x Hs).
Qed.

(** A list that is in ascending order already is one run. *)
Lemma count_run_all l :
  StronglySorted le_rating l -> count_run l = (l, []).
Proof.
  destruct l as [|x [|y l]]; intros Hs; try reflexivity.
  pose proof (ascending_run_all x (y :: l) Hs) as Ha.
  unfold count_run. destruct (item_lt y x) eqn:Elt.
  - simpl in Ha. rewrite Elt in Ha. discriminate.
  - now rewrite Ha.
Qed.

(** Equal ratings keep the order they have in the dictionary. *)
Lemma sorted_desc_stable items :
  Forall (fun y => FloatOrder.not_nan y.2) items ->
  StronglySorted ge_rating items -> sorted_desc items = items.
Proof.
  intros _ Hs. unfold sorted_desc, list_sort.
  rewrite count_run_all by exact (StronglySorted_reverse ge_rating _ Hs).
  simpl. apply reverse_involutive.
Qed.

Lemma build_leaderboard_length elos votes :
  length (build_leaderboard elos votes) = length elos.
Proof.
  unfold build_leaderboard. now rewrite length_imap, sorted_desc_length.
Qed.

Lemma build_leaderboard_lookup elos votes i e :
  build_leaderboard elos votes !! i = Some e ->
  exists item, sorted_desc elos !! i = Some item /\
    e = {| entry_rank := S i; entry_model := item.1;
           entry_elo := round1 item.2;
           entry_votes := default 0%Z (Dict.get votes item.1) |}.
Proof.
  unfold build_leaderboard. rewrite list_lookup_imap.
  destruct (sorted_desc elos !! i) as [item|]; simpl; [|discriminate].
  intros [= <-]. eauto.
Qed.

Lemma imap_ranks {A} (f : nat -> A -> entry) (l : list A) (k : nat) :
  (forall i x, entry_rank (f i x) = k + i) ->
  entry_rank <$> imap f l = seq k (length l).
Proof.
  revert f k. induction l as [|x l IH]; intros f k Hf; simpl; [reflexivity|].
  rewrite Hf, Nat.add_0_r. f_equal.
  apply IH. intros i y. unfold compose. rewrite Hf. lia.
Qed.

Lemma build_leaderboard_ranks elos votes :
  entry_rank <$> build_leaderboard elos votes = seq 1 (length elos).
Proof.
  unfold build_leaderboard. rewrite (imap_ranks _ _ 1) by reflexivity.
  now rewrite sorted_desc_length.
Qed.

(** C6: the leaderboard lists every item of the ratings map once, in
    descending order of the stored rating (for ratings that are numbers, not
    NaN); its ranks are 1, 2, ..., N for N items; the entry at each position
    shows the stored rating rounded to one decimal place and the vote count
    of that item (0 when it has none); and serving the leaderboard leaves
    the ledger and the rating file as they were. *)
Theorem leaderboard_sorted_ranked
    (elos : list (string * float)) (votes : list (string * Z)) :
  let leaderboard := build_leaderboard elos votes in
  let ordered := sorted_desc elos in
  ordered ≡ₚ elos /\
  (Forall (fun item => FloatOrder.not_nan item.2) elos ->
   StronglySorted ge_rating ordered) /\
  length leaderboard = length elos /\
  entry_rank <$> leaderboard = seq 1 (length elos) /\
  (forall i e, leaderboard !! i = Some e ->
     entry_rank e = S i /\
     exists score,
       ordered !! i = Some (entry_model e, score) /\
       (entry_model e, score) ∈ elos /\
       entry_elo e = round1 score /\
       entry_votes e = default 0%Z (Dict.get votes (entry_model e))) /\
  (forall s, (api_leaderboard s).2 = s).
Proof.
  intros leaderboard ordered. subst leaderboard ordered.
  split; [apply sorted_desc_perm|].
  split; [apply sorted_desc_sorted|].
  split; [apply build_leaderboard_length|].
  split; [apply build_leaderboard_ranks|].
  split; [|reflexivity].
  intros i e He. apply build_leaderboard_lookup in He as [[m score] [Hi ->]].
  simpl. split; [reflexivity|]. exists score.
  split; [assumption|]. split; [|auto].
  rewrite <- (sorted_desc_perm elos). eapply list_elem_of_lookup_2. eassumption.
Qed.

(** ** Facts about the rating store *)

(** What the loader reads from the file before the backfill loop. *)
Definition stored_elos (file : option document) : list (string * float) :=
  match file with
  | Some (StateDoc elos _ _) => elos
  | Some (LegacyDoc ratings) => ratings
  | None => []
  end.

Definition stored_votes (file : option document) : list (string * Z) :=
  match file with
  | Some (StateDoc _ votes _) => default [] votes
  | _ => []
  end.

Definition stored_total (file : option document) : Z :=
  match file with
  | Some (StateDoc _ _ total) => default 0%Z total
  | _ => 0%Z
  end.

(** The backfill loop on one dictionary. *)
Definition setdefaults {V} (d : list (string * V)) (ks : list string) (v : V)
    : list (string * V) :=
  foldl (fun d k => Dict.setdefault d k v) d ks.

Lemma backfill_setdefaults ev ms :
  foldl backfill ev ms =
  (setdefaults ev.1 ms 1500%float, setdefaults ev.2 ms 0%Z).
Proof.
  revert ev. induction ms as [|m ms IH]; intros [e v]; simpl; [reflexivity|].
  now rewrite IH.
Qed.

Lemma load_state_eq file :
  _load_state file =
  {| elos := setdefaults (stored_elos file) MODELS 1500%float;
     votes := setdefaults (stored_votes file) MODELS 0%Z;
     total_votes := stored_total file |}.
Proof.
  unfold _load_state.
  destruct file as [[r|e v t]|]; simpl; rewrite backfill_setdefaults; reflexivity.
Qed.

Lemma get_setdefaults {V} (d : list (string * V)) ks v k :
  Dict.get (setdefaults d ks v) k =
  match Dict.get d k with
  | Some x => Some x
  | None => if decide (k ∈ ks) then Some v else None
  end.
Proof.
  revert d. induction ks as [|m ks IH]; intros d; simpl.
  - destruct (Dict.get d k); [reflexivity|].
    destruct (decide (k ∈ [])) as [H|]; [inversion H|reflexivity].
  - unfold setdefaults in *. simpl. rewrite IH.
    destruct (decide (m = k)) as [->|Hne].
    + rewrite Dict.get_setdefault_eq.
      destruct (Dict.get d k); simpl; [reflexivity|].
      destruct (decide (k ∈ k :: ks)) as [|H]; [reflexivity|].
      exfalso. apply H. left.
    + rewrite Dict.get_setdefault_ne by assumption.
      destruct (Dict.get d k); [reflexivity|].
      destruct (decide (k ∈ ks)), (decide (k ∈ m :: ks)) as [H|H];
        try reflexivity.
      * exfalso. apply H. now right.
      * exfalso. apply elem_of_cons in H as [->|]; congruence.
Qed.

Lemma setdefaults_present {V} (d : list (string * V)) ks v :
  (forall k, k ∈ ks -> is_Some (Dict.get d k)) -> setdefaults d ks v = d.
Proof.
  induction ks as [|m ks IH]; intros H; [reflexivity|].
  unfold setdefaults in *. simpl.
  rewrite Dict.setdefault_present by (apply H; left).
  apply IH. intros k Hk. apply H. now right.
Qed.

(** Every roster item has a rating and a vote count after a load. *)
Lemma load_state_has_roster file m :
  m ∈ MODELS ->
  is_Some (Dict.get (elos (_load_state file)) m) /\
  is_Some (Dict.get (votes (_load_state file)) m).
Proof.
  intros Hm. rewrite load_state_eq. simpl. rewrite !get_setdefaults.
  destruct (decide (m ∈ MODELS)); [|contradiction].
  split.
  - destruct (Dict.get (stored_elos file) m); eauto.
  - destruct (Dict.get (stored_votes file) m); eauto.
Qed.

Lemma setdefaults_prefix {V} (d : list (string * V)) ks v :
  exists added, setdefaults d ks v = d ++ added.
Proof.
  revert d. induction ks as [|m ks IH]; intros d.
  - exists []. unfold setdefaults. simpl. now rewrite app_nil_r.
  - unfold setdefaults in *. simpl. unfold Dict.setdefault at 2.
    destruct (Dict.get d m); [apply IH|].
    destruct (IH (d ++ [(m, v)])) as [added ->].
    exists ((m, v) :: added). now rewrite <- app_assoc.
Qed.

(** C5: a legacy document (a bare map from item to rating) loads into a
    state whose ratings start with that document, entry for entry and in its
    order, whose vote counts are 0 for the roster and whose [total_votes] is
    0; and after every load each roster item has a rating and a vote count,
    the stored one when the document has it and the default (1500.0, 0)
    when it does not. *)
Theorem load_legacy_and_backfill :
  (forall ratings : list (string * float),
     let state := _load_state (Some (LegacyDoc ratings)) in
     (exists added, elos state = ratings ++ added) /\
     (forall k, Dict.get (elos state) k =
                match Dict.get ratings k with
                | Some x => Some x
                | None => if decide (k ∈ MODELS) then Some 1500%float else None
                end) /\
     (forall k, Dict.get (votes state) k =
                if decide (k ∈ MODELS) then Some 0%Z else None) /\
     total_votes state = 0%Z) /\
  (forall (file : option document) (m : string),
     m ∈ MODELS ->
     Dict.get (elos (_load_state file)) m
       = Some (default 1500%float (Dict.get (stored_elos file) m)) /\
     Dict.get (votes (_load_state file)) m
       = Some (default 0%Z (Dict.get (stored_votes file) m))).
Proof.
  split.
  - intros ratings state. subst state. rewrite load_state_eq. simpl.
    split; [apply setdefaults_prefix|].
    split; [intros k; apply get_setdefaults|].
    split; [|reflexivity].
    intros k. now rewrite get_setdefaults.
  - intros file m Hm. rewrite load_state_eq. simpl. rewrite !get_setdefaults.
    destruct (decide (m ∈ MODELS)); [|contradiction].
    split.
    + now destruct (Dict.get (stored_elos file) m).
    + now destruct (Dict.get (stored_votes file) m).
Qed.

(** C8: saving a state that has an entry for every roster item in both maps
    and loading it back returns the same state: the same ratings, the same
    vote counts (both in the same order) and the same [total_votes]. *)
Theorem save_load_roundtrip (state : EloState) :
  (forall m, m ∈ MODELS ->
     is_Some (Dict.get (elos state) m) /\ is_Some (Dict.get (votes state) m)) ->
  _load_state (Some (_save_state state)) = state.
Proof.
  intros H. rewrite load_state_eq. destruct state as [e v t]. simpl in *.
  rewrite !setdefaults_present; [reflexivity| |]; intros k Hk; now apply H.
Qed.

(** ** Facts about the rating engine *)

(** C3: both ratings are read, and both powers [10 ** ((rl - rw) / 400)]
    and [10 ** ((rw - rl) / 400)] evaluated, before any assignment.  When
    both powers have a value, the winner's rating becomes
    [rw + k * (1 - ew)] and the loser's [rl + k * (0 - el)] with
    [ew = 1 / (1 + 10 ** ((rl - rw) / 400))] and [el] the symmetric
    expression, and every other rating is kept.  When one of them raises
    [OverflowError] so does the update, and nothing is assigned.  From
    1500.0 against 1500.0 with k = 32.0 the results are exactly 1516.0 and
    1484.0 ([10 ** 0.0] being [1.0]). *)
Theorem elo_update_simultaneous elos winner loser (k rw rl : float) :
  winner <> loser ->
  Dict.get elos winner = Some rw ->
  Dict.get elos loser = Some rl ->
  (forall pw pl,
     pow 10 ((rl - rw) / 400) = Some pw ->
     pow 10 ((rw - rl) / 400) = Some pl ->
     exists elos',
       elo_update elos winner loser k = Ok elos' /\
       Dict.get elos' winner = Some (rw + k * (1 - 1 / (1 + pw)))%float /\
       Dict.get elos' loser = Some (rl + k * (0 - 1 / (1 + pl)))%float /\
       (forall m, m <> winner -> m <> loser ->
          Dict.get elos' m = Dict.get elos m) /\
       Dict.keys elos' = Dict.keys elos) /\
  (pow 10 ((rl - rw) / 400) = None \/ pow 10 ((rw - rl) / 400) = None ->
   elo_update elos winner loser k = Raise OverflowError) /\
  (pow 10 0 = Some 1%float ->
   rw = 1500%float -> rl = 1500%float -> k = 32%float ->
   exists elos',
     elo_update elos winner loser k = Ok elos' /\
     Dict.get elos' winner = Some 1516%float /\
     Dict.get elos' loser = Some 1484%float).
Proof.
  intros Hne Hw Hl.
  assert (Gw : forall x y, Dict.get (Dict.set (Dict.set elos winner x) loser y) winner
                           = Some x).
  { intros x y. rewrite Dict.get_set_ne by congruence. apply Dict.get_set_eq. }
  assert (Gl : forall x y, Dict.get (Dict.set (Dict.set elos winner x) loser y) loser
                           = Some y).
  { intros x y. apply Dict.get_set_eq. }
  split; [|split].
  - intros pw pl Hpw Hpl. unfold elo_update, dict_index, float_pow.
    rewrite Hw, Hl. simpl. rewrite Hpw. simpl. rewrite Hpl. simpl.
    eexists. split; [reflexivity|].
    split; [apply Gw|]. split; [apply Gl|].
    split.
    + intros m Hmw Hml. rewrite !Dict.get_set_ne by congruence. reflexivity.
    + rewrite !Dict.keys_set_present; [reflexivity|eauto|].
      rewrite Dict.get_set_ne by congruence. eauto.
  - intros Hnone. unfold elo_update, dict_index, float_pow.
    rewrite Hw, Hl. simpl.
    destruct (pow 10 ((rl - rw) / 400)) as [pw|]; simpl; [|reflexivity].
    destruct Hnone as [Hn|Hn]; [discriminate|]. now rewrite Hn.
  - intros Hpow -> -> ->. unfold elo_update, dict_index, float_pow.
    rewrite Hw, Hl. simpl.
    change ((1500 - 1500) / 400)%float with 0%float. rewrite Hpow. simpl.
    eexists. split; [reflexivity|]. rewrite Gw, Gl. split; reflexivity.
Qed.

(** ** Facts about the category index *)

(** [model] has at least one joke in [category]. *)
Definition has_jokes (category model : string) : bool :=
  match default ∅ (JOKES !! model) !! category with
  | Some (_ :: _) => true
  | _ => false
  end.

Lemma index_of_model_lookup index model c :
  index_of_model index model !! c =
  if has_jokes c model then Some (default [] (index !! c) ++ [model])
  else index !! c.
Proof.
  unfold index_of_model, has_jokes.
  generalize (default ∅ (JOKES !! model)). intros by_category.
  assert (H : forall c,
    map_fold (index_append model) index by_category !! c =
    match by_category !! c with
    | Some (_ :: _) => Some (default [] (index !! c) ++ [model])
    | _ => index !! c
    end).
  { apply (map_fold_weak_ind
      (fun r (m : gmap string (list string)) => forall c,
         r !! c = match m !! c with
                  | Some (_ :: _) => Some (default [] (index !! c) ++ [model])
                  | _ => index !! c
                  end)).
    - intros c'. now rewrite lookup_empty.
    - intros i x m r Hi IH c'. destruct (decide (i = c')) as [->|Hne].
      + rewrite lookup_insert_eq. specialize (IH c'). rewrite Hi in IH.
        destruct x as [|j x]; simpl; [assumption|].
        now rewrite lookup_insert_eq, IH.
      + rewrite lookup_insert_ne by assumption. rewrite <- IH.
        destruct x as [|j x]; simpl; [reflexivity|].
        now rewrite lookup_insert_ne. }
  rewrite H. now destruct (by_category !! c) as [[|? ?]|].
Qed.

Lemma index_fold_lookup index ms c :
  foldl index_of_model index ms !! c =
  match filter (fun m => has_jokes c m = true) ms with
  | [] => index !! c
  | l => Some (default [] (index !! c) ++ l)
  end.
Proof.
  revert index. induction ms as [|m ms IH]; intros index; simpl; [reflexivity|].
  rewrite IH, index_of_model_lookup. rewrite filter_cons.
  destruct (decide (has_jokes c m = true)) as [E|E].
  - rewrite E. simpl. destruct (filter _ ms); simpl.
    + reflexivity.
    + now rewrite <- app_assoc.
  - apply not_true_is_false in E. rewrite E. reflexivity.
Qed.

(** The entry of a category is the roster, in its order, restricted to the
    models with a joke in the category, when they are at least two. *)
Lemma CATEGORY_INDEX_lookup c l :
  CATEGORY_INDEX !! c = Some l <->
  l = filter (fun m => has_jokes c m = true) MODELS /\ 2 <= length l.
Proof.
  unfold CATEGORY_INDEX, _build_category_index.
  rewrite map_lookup_filter_Some, index_fold_lookup, lookup_empty. simpl.
  destruct (filter _ MODELS) as [|m l'] eqn:E.
  - split; [intros [? _]; discriminate|]. intros [-> H]. simpl in H. lia.
  - split; [intros [[= <-] H]; auto|]. intros [-> H]. auto.
Qed.

Lemma CATEGORY_INDEX_roster c l m :
  CATEGORY_INDEX !! c = Some l -> m ∈ l -> m ∈ MODELS /\ has_jokes c m = true.
Proof.
  rewrite CATEGORY_INDEX_lookup. intros [-> _] Hm.
  apply list_elem_of_filter in Hm. tauto.
Qed.

(** ** Facts about the random draws *)

Lemma choice_elem {A} (seq : list A) draw x : choice seq draw = Ok x -> x ∈ seq.
Proof.
  unfold choice. destruct (seq !! _) eqn:E; [|discriminate].
  intros [= <-]. eapply list_elem_of_lookup_2. eassumption.
Qed.

Lemma choice_Ok {A} (seq : list A) draw :
  seq <> [] -> exists x, choice seq draw = Ok x.
Proof.
  intros Hne. unfold choice.
  destruct (lookup_lt_is_Some_2 seq (draw mod length seq)) as [x ->]; [|eauto].
  apply Nat.mod_upper_bound. destruct seq; simpl; [congruence|lia].
Qed.

(** The two elements of a sample stand at two distinct positions. *)
Lemma sample2_positions {A} (l : list A) draw1 draw2 a b :
  sample2 l draw1 draw2 = Ok (a, b) ->
  exists i j, i <> j /\ l !! i = Some a /\ l !! j = Some b.
Proof.
  unfold sample2. destruct (decide (length l < 2)) as [|Hlen]; [discriminate|].
  set (n := length l) in *. set (i := draw1 mod n).
  destruct (l !! i) as [a'|] eqn:Ha; [|discriminate].
  destruct (l !! (n - 1)) as [z|] eqn:Hz; [|discriminate].
  set (j := draw2 mod (n - 1)).
  destruct (<[i:=z]> l !! j) as [b'|] eqn:Hb; [|discriminate].
  intros [= <- <-].
  assert (Hj : j < n - 1) by (apply Nat.mod_upper_bound; lia).
  destruct (decide (i = j)) as [Hij|Hij].
  - exists i, (n - 1). rewrite Hij in Hb |- *.
    rewrite list_lookup_insert_eq in Hb by (fold n; lia).
    injection Hb as <-. repeat split; [lia|congruence|assumption].
  - exists i, j. rewrite list_lookup_insert_ne in Hb by assumption. auto.
Qed.

Lemma sample2_Ok {A} (l : list A) draw1 draw2 :
  2 <= length l -> exists a b, sample2 l draw1 draw2 = Ok (a, b).
Proof.
  intros Hlen. unfold sample2.
  destruct (decide (length l < 2)) as [|_]; [lia|].
  set (n := length l) in *.
  assert (Hi : draw1 mod n < n) by (apply Nat.mod_upper_bound; lia).
  assert (Hj : draw2 mod (n - 1) < n - 1) by (apply Nat.mod_upper_bound; lia).
  destruct (lookup_lt_is_Some_2 l (draw1 mod n)) as [a ->]; [assumption|].
  destruct (lookup_lt_is_Some_2 l (n - 1)) as [z ->]; [fold n; lia|].
  destruct (lookup_lt_is_Some_2 (<[draw1 mod n:=z]> l) (draw2 mod (n - 1)))
    as [b ->]; [rewrite length_insert; fold n; lia|].
  eauto.
Qed.

(** Every ordered pair of distinct positions is the sample of some draws. *)
Lemma sample2_complete {A} (l : list A) i j a b :
  i <> j -> l !! i = Some a -> l !! j = Some b ->
  exists draw1 draw2, sample2 l draw1 draw2 = Ok (a, b).
Proof.
  intros Hij Ha Hb.
  pose proof (lookup_lt_Some _ _ _ Ha) as Hi.
  pose proof (lookup_lt_Some _ _ _ Hb) as Hj.
  exists i, (if decide (j = length l - 1) then i else j).
  unfold sample2. destruct (decide (length l < 2)) as [|_]; [lia|].
  rewrite (Nat.mod_small i) by assumption. rewrite Ha.
  destruct (lookup_lt_is_Some_2 l (length l - 1)) as [z Hz]; [lia|]. rewrite Hz.
  destruct (decide (j = length l - 1)) as [->|Hjn].
  - rewrite Nat.mod_small by lia.
    rewrite list_lookup_insert_eq by assumption. congruence.
  - rewrite Nat.mod_small by lia.
    rewrite list_lookup_insert_ne by assumption. now rewrite Hb.
Qed.

(** ** Facts about the matchmaker *)

(** The jokes of [model] in [category]: [JOKES[model][category]] *)
Definition jokes_of (model category : string) : option (list string) :=
  by_category ← JOKES !! model; by_category !! category.

Lemma has_jokes_pool c m :
  has_jokes c m = true <->
  exists jokes, jokes_of m c = Some jokes /\ jokes <> [].
Proof.
  unfold has_jokes, jokes_of.
  destruct (JOKES !! m) as [by_category|]; simpl.
  - destruct (by_category !! c) as [[|j jokes]|]; split;
      try discriminate; try (intros [? [? ?]]; congruence); eauto.
  - rewrite lookup_empty. split; [discriminate|]. intros [? [? ?]]; congruence.
Qed.

Lemma make_contestant_Ok rank_lookup c m draw :
  has_jokes c m = true ->
  exists ct, make_contestant rank_lookup c m draw = Ok ct.
Proof.
  intros H. apply has_jokes_pool in H as [jokes [Hj Hne]].
  unfold jokes_of in Hj. unfold make_contestant, map_index.
  destruct (JOKES !! m) as [by_category|]; simpl in *; [|discriminate].
  rewrite Hj. simpl.
  destruct (choice_Ok jokes draw Hne) as [joke ->]. simpl. eauto.
Qed.

Lemma make_contestant_spec rank_lookup c m draw ct :
  make_contestant rank_lookup c m draw = Ok ct ->
  contestant_id ct = m /\
  contestant_rank ct = Dict.get rank_lookup m /\
  exists jokes, jokes_of m c = Some jokes /\ contestant_joke ct ∈ jokes.
Proof.
  unfold make_contestant, map_index, jokes_of.
  destruct (JOKES !! m) as [by_category|]; simpl; [|discriminate].
  destruct (by_category !! c) as [jokes|]; simpl; [|discriminate].
  destruct (choice jokes draw) as [joke|] eqn:E; simpl; [|discriminate].
  intros [= <-]. simpl. apply choice_elem in E. eauto.
Qed.

Lemma select_battle_Raise r s e s' :
  select_battle r s = (Raise e, s') -> s' = s.
Proof.
  unfold select_battle. destruct (decide (CATEGORY_INDEX = ∅)).
  - now intros [= _ <-].
  - match goal with |- context [match ?x with Ok _ => _ | Raise _ => _ end] =>
      destruct x as [[[[? ?] ?] ?]|] end.
    + discriminate.
    + now intros [= _ <-].
Qed.

Lemma select_battle_Ok r s c s' :
  select_battle r s = (Ok c, s') ->
  let state := read_state (ELO_FILE s) in
  let rank_lookup :=
    rank_lookup_of (build_leaderboard (elos state) (votes state)) in
  exists models a b first second,
    CATEGORY_INDEX !! category c = Some models /\
    (exists i j, i <> j /\ models !! i = Some a /\ models !! j = Some b) /\
    make_contestant rank_lookup (category c) a (draw_joke_a r) = Ok first /\
    make_contestant rank_lookup (category c) b (draw_joke_b r) = Ok second /\
    contestants c = [first; second] /\
    battle_id c = uuid4 r /\
    s' = {| ACTIVE_BATTLES :=
              <[uuid4 r := {| battle_winner := None; model_a := a; model_b := b |}]>
                (ACTIVE_BATTLES s);
            ELO_FILE := ELO_FILE s |}.
Proof.
  unfold select_battle. destruct (decide (CATEGORY_INDEX = ∅)); [discriminate|].
  intros H. set (rank_lookup := rank_lookup_of _) in *.
  destruct (choice (map_to_list CATEGORY_INDEX).*1 (draw_category r))
    as [cat|] eqn:Hc; simpl in H; [|discriminate].
  unfold map_index in H at 1.
  destruct (CATEGORY_INDEX !! cat) as [models|] eqn:Hm; simpl in H; [|discriminate].
  destruct (sample2 models (draw_first r) (draw_second r)) as [[a b]|] eqn:Hs;
    simpl in H; [|discriminate].
  destruct (make_contestant rank_lookup cat a (draw_joke_a r)) as [first|] eqn:Ha;
    simpl in H; [|discriminate].
  destruct (make_contestant rank_lookup cat b (draw_joke_b r)) as [second|] eqn:Hb;
    simpl in H; [|discriminate].
  injection H as <- <-. simpl.
  exists models, a, b, first, second.
  split; [assumption|]. split; [eapply sample2_positions; eassumption|].
  auto.
Qed.

Lemma select_battle_total r s :
  CATEGORY_INDEX <> ∅ -> exists c s', select_battle r s = (Ok c, s').
Proof.
  intros Hne. unfold select_battle.
  destruct (decide (CATEGORY_INDEX = ∅)); [contradiction|].
  destruct (choice_Ok (map_to_list CATEGORY_INDEX).*1 (draw_category r))
    as [cat Hc].
  { intros E. apply fmap_nil_inv in E. now apply map_to_list_empty_iff in E. }
  rewrite Hc. simpl.
  apply choice_elem, list_elem_of_fmap in Hc as [[cat' models] [-> Hin]].
  apply elem_of_map_to_list in Hin. simpl.
  unfold map_index at 1. rewrite Hin. simpl.
  pose proof Hin as Hl. apply CATEGORY_INDEX_lookup in Hl as [_ Hlen].
  destruct (sample2_Ok models (draw_first r) (draw_second r) Hlen)
    as [a [b Hs]].
  rewrite Hs. simpl.
  apply sample2_positions in Hs as [i [j [_ [Hi Hj]]]].
  apply list_elem_of_lookup_2 in Hi, Hj.
  destruct (CATEGORY_INDEX_roster _ _ _ Hin Hi) as [_ Hja].
  destruct (CATEGORY_INDEX_roster _ _ _ Hin Hj) as [_ Hjb].
  match goal with |- context [make_contestant ?rl cat' a ?d] =>
    destruct (make_contestant_Ok rl cat' a d Hja) as [first ->] end.
  simpl.
  match goal with |- context [make_contestant ?rl cat' b ?d] =>
    destruct (make_contestant_Ok rl cat' b d Hjb) as [second ->] end.
  simpl. eauto.
Qed.

(** C9: [select_battle] raises [NoEligibleCategory] exactly when the
    category index is empty, that is when no category has two roster items
    with a joke in it; with a non-empty index it raises nothing and returns
    a comparison. *)
Theorem select_battle_no_category_iff_empty :
  (forall r s, (select_battle r s).1 = Raise NoEligibleCategory
               <-> CATEGORY_INDEX = ∅) /\
  (forall r s, CATEGORY_INDEX <> ∅ -> exists c, (select_battle r s).1 = Ok c) /\
  (CATEGORY_INDEX = ∅ <->
   forall c, length (filter (fun m => has_jokes c m = true) MODELS) < 2).
Proof.
  split; [|split].
  - intros r s. split.
    + intros H. destruct (decide (CATEGORY_INDEX = ∅)) as [|Hne]; [assumption|].
      destruct (select_battle_total r s Hne) as [c [s' E]].
      rewrite E in H. discriminate.
    + intros E. unfold select_battle.
      destruct (decide (CATEGORY_INDEX = ∅)); [reflexivity|contradiction].
  - intros r s Hne. destruct (select_battle_total r s Hne) as [c [s' E]].
    exists c. now rewrite E.
  - split.
    + intros E c.
      destruct (decide (length (filter (fun m => has_jokes c m = true) MODELS) < 2))
        as [|Hlen]; [assumption|].
      assert (H : CATEGORY_INDEX !! c
                  = Some (filter (fun m => has_jokes c m = true) MODELS))
        by (apply CATEGORY_INDEX_lookup; split; [reflexivity|lia]).
      rewrite E, lookup_empty in H. discriminate.
    + intros H. apply map_empty. intros c.
      destruct (CATEGORY_INDEX !! c) as [l|] eqn:E; [|reflexivity].
      apply CATEGORY_INDEX_lookup in E as [-> Hlen]. specialize (H c). lia.
Qed.

(** C7: a comparison returned by [select_battle] has two contestants, taken
    from two distinct positions of the index entry of the returned category,
    hence with distinct identifiers when the roster lists no identifier
    twice; both identifiers belong to that entry; and each text is one of
    the jokes of its item in that category, a pool that is not empty. *)
Theorem select_battle_contestants r s c :
  (select_battle r s).1 = Ok c ->
  exists first second models,
    contestants c = [first; second] /\
    CATEGORY_INDEX !! category c = Some models /\
    (exists i j, i <> j /\ models !! i = Some (contestant_id first) /\
                 models !! j = Some (contestant_id second)) /\
    (NoDup MODELS -> contestant_id first <> contestant_id second) /\
    contestant_id first ∈ models /\
    contestant_id second ∈ models /\
    (exists jokes, jokes_of (contestant_id first) (category c) = Some jokes /\
                   jokes <> [] /\ contestant_joke first ∈ jokes) /\
    (exists jokes, jokes_of (contestant_id second) (category c) = Some jokes /\
                   jokes <> [] /\ contestant_joke second ∈ jokes).
Proof.
  intros H. destruct (select_battle r s) as [res s'] eqn:E. simpl in H.
  subst res. apply select_battle_Ok in E.
  destruct E as (models & a & b & first & second & Hm & Hpos & Ha & Hb & Hc & _).
  destruct Hpos as (i & j & Hij & Hi & Hj).
  apply make_contestant_spec in Ha as (Ida & _ & jokes_a & Hja & Hina).
  apply make_contestant_spec in Hb as (Idb & _ & jokes_b & Hjb & Hinb).
  exists first, second, models. rewrite Ida, Idb.
  split; [assumption|]. split; [assumption|].
  split; [exists i, j; auto|].
  split.
  { intros Hnd ->. apply Hij.
    assert (Hndm : NoDup models).
    { apply CATEGORY_INDEX_lookup in Hm as [-> _]. now apply NoDup_filter. }
    eapply NoDup_lookup; eassumption. }
  split; [eapply list_elem_of_lookup_2; eassumption|].
  split; [eapply list_elem_of_lookup_2; eassumption|].
  split.
  - exists jokes_a. split; [assumption|]. split; [|assumption].
    intros ->. inversion Hina.
  - exists jokes_b. split; [assumption|]. split; [|assumption].
    intros ->. inversion Hinb.
Qed.

(** ** Facts about the battle ledger *)

(** [(contenders - {winner}).pop()] for a winner among the contenders *)
Lemma pop_other_contender (a b winner : string) :
  winner ∈ ({[ a; b ]} : gset string) ->
  elements (({[ a; b ]} : gset string) ∖ {[ winner ]}) =
  if decide (a = b) then [] else [if decide (winner = a) then b else a].
Proof.
  rewrite elem_of_union, !elem_of_singleton. intros Hin.
  assert (E : ({[ a; b ]} : gset string) ∖ {[ winner ]}
              = if decide (a = b) then ∅
                else {[ if decide (winner = a) then b else a ]}).
  { apply set_eq. intros x.
    rewrite elem_of_difference, elem_of_union, !elem_of_singleton.
    destruct (decide (a = b)) as [->|Hab].
    - rewrite elem_of_empty. destruct Hin; subst; tauto.
    - rewrite elem_of_singleton.
      destruct (decide (winner = a)) as [->|Hwa].
      + split; [intros [[->| ->] H]; congruence|intros ->; split; auto].
      + destruct Hin as [->| ->]; [congruence|].
        split; [intros [[->| ->] H]; congruence|intros ->; split; auto]. }
  rewrite E. destruct (decide (a = b)).
  - apply elements_empty.
  - apply elements_singleton.
Qed.

(** The ledger after [submit_result]: the token is gone, nothing is added. *)
Lemma submit_result_ledger token winner s :
  ACTIVE_BATTLES (submit_result token winner s).2
  = delete token (ACTIVE_BATTLES s).
Proof.
  unfold submit_result. destruct (ACTIVE_BATTLES s !! token) as [b|] eqn:E.
  - destruct (decide _); [reflexivity|].
    destruct (elements _); [reflexivity|].
    destruct (update_state _ _) as [[[? ?]|?] ?]; reflexivity.
  - simpl. symmetry. now apply delete_id.
Qed.

Lemma submit_result_unknown token winner s :
  ACTIVE_BATTLES s !! token = None ->
  submit_result token winner s = (RespError UnknownToken, s).
Proof. intros H. unfold submit_result. now rewrite H. Qed.

(** C4: for a pending comparison and a declared winner that is neither of
    its two items, the answer is [InvalidWinner], the rating file is left as
    it was, and the token is removed from the ledger all the same. *)
Theorem invalid_winner_consumes_token s token pending winner :
  ACTIVE_BATTLES s !! token = Some pending ->
  winner <> model_a pending ->
  winner <> model_b pending ->
  submit_result token winner s
  = (RespError InvalidWinner,
     {| ACTIVE_BATTLES := delete token (ACTIVE_BATTLES s);
        ELO_FILE := ELO_FILE s |}) /\
  (submit_result token winner s).2.(ACTIVE_BATTLES) !! token = None /\
  _load_state (submit_result token winner s).2.(ELO_FILE)
  = _load_state (ELO_FILE s).
Proof.
  intros Hp Ha Hb.
  assert (E : submit_result token winner s
              = (RespError InvalidWinner,
                 {| ACTIVE_BATTLES := delete token (ACTIVE_BATTLES s);
                    ELO_FILE := ELO_FILE s |})).
  { unfold submit_result. rewrite Hp.
    destruct (decide (winner ∉ ({[model_a pending; model_b pending]} : gset string)))
      as [|Hin]; [reflexivity|].
    exfalso. apply Hin.
    rewrite elem_of_union, !elem_of_singleton. tauto. }
  rewrite E. simpl. split; [reflexivity|]. split; [|reflexivity].
  apply lookup_delete_eq.
Qed.

(** ** Facts about a recorded vote *)

Lemma elo_update_inv elos winner loser k elos' :
  elo_update elos winner loser k = Ok elos' ->
  exists rw rl pw pl,
    Dict.get elos winner = Some rw /\ Dict.get elos loser = Some rl /\
    pow 10 ((rl - rw) / 400) = Some pw /\
    pow 10 ((rw - rl) / 400) = Some pl /\
    elos' =
      Dict.set
        (Dict.set elos winner (rw + k * (1 - 1 / (1 + pw)))%float)
        loser (rl + k * (0 - 1 / (1 + pl)))%float.
Proof.
  unfold elo_update, dict_index, float_pow.
  destruct (Dict.get elos winner) as [rw|]; simpl; [|discriminate].
  destruct (Dict.get elos loser) as [rl|]; simpl; [|discriminate].
  destruct (pow 10 ((rl - rw) / 400)) as [pw|] eqn:Hpw; simpl; [|discriminate].
  destruct (pow 10 ((rw - rl) / 400)) as [pl|] eqn:Hpl; simpl; [|discriminate].
  intros [= <-]. exists rw, rl, pw, pl. auto.
Qed.

Lemma elo_update_raise elos winner loser k e :
  elo_update elos winner loser k = Raise e ->
  (e = KeyError winner /\ Dict.get elos winner = None) \/
  (e = KeyError loser /\ Dict.get elos loser = None) \/
  e = OverflowError.
Proof.
  unfold elo_update, dict_index, float_pow.
  destruct (Dict.get elos winner) as [rw|]; simpl; [|intros [= <-]; auto].
  destruct (Dict.get elos loser) as [rl|]; simpl; [|intros [= <-]; auto].
  destruct (pow 10 ((rl - rw) / 400)) as [pw|]; simpl; [|intros [= <-]; auto].
  destruct (pow 10 ((rw - rl) / 400)) as [pl|]; simpl; [discriminate|].
  intros [= <-]. auto.
Qed.

Lemma record_battle_result_inv state winner loser state' leaderboard :
  _record_battle_result state winner loser = Ok (state', leaderboard) ->
  elo_update (elos state) winner loser 32%float = Ok (elos state') /\
  votes state' =
    Dict.set (votes state) winner
      (default 0 (Dict.get (votes state) winner) + 1)%Z /\
  total_votes state' = (total_votes state + 1)%Z /\
  leaderboard = build_leaderboard (elos state') (votes state').
Proof.
  unfold _record_battle_result.
  destruct (elo_update (elos state) winner loser 32%float) as [elos'|];
    simpl; [|discriminate].
  intros [= <- <-]. simpl. auto.
Qed.

(** A state recorded from a loaded one has the whole roster, so loading what
    was saved gives it back. *)
Lemma load_recorded file winner loser state' leaderboard :
  _record_battle_result (_load_state file) winner loser = Ok (state', leaderboard) ->
  _load_state (Some (_save_state state')) = state'.
Proof.
  intros H. apply record_battle_result_inv in H as (He & Hv & _ & _).
  apply elo_update_inv in He as (rw & rl & pw & pl & _ & _ & _ & _ & He).
  rewrite load_state_eq. destruct state' as [e v t]. simpl in *. subst e v.
  rewrite !setdefaults_present; [reflexivity| |]; intros m Hm;
    destruct (load_state_has_roster file m Hm) as [H1 H2];
    repeat apply Dict.get_set_is_Some; assumption.
Qed.

(** What a successful [submit_result] did. *)
Lemma submit_result_success token winner s leaderboard total s' :
  submit_result token winner s = (RespLeaderboard leaderboard total, s') ->
  exists pending loser state',
    ACTIVE_BATTLES s !! token = Some pending /\
    model_a pending <> model_b pending /\
    (winner = model_a pending /\ loser = model_b pending \/
     winner = model_b pending /\ loser = model_a pending) /\
    _record_battle_result (_load_state (ELO_FILE s)) winner loser
      = Ok (state', leaderboard) /\
    total = total_votes state' /\
    s' = {| ACTIVE_BATTLES := delete token (ACTIVE_BATTLES s);
            ELO_FILE := Some (_save_state state') |}.
Proof.
  unfold submit_result.
  destruct (ACTIVE_BATTLES s !! token) as [pending|]; [|discriminate].
  destruct (decide (winner ∉ _)) as [|Hin]; [discriminate|].
  apply dec_stable in Hin. rewrite (pop_other_contender _ _ _ Hin).
  apply elem_of_union in Hin. rewrite !elem_of_singleton in Hin.
  destruct (decide (model_a pending = model_b pending)) as [|Hab]; [discriminate|].
  unfold update_state.
  destruct (_record_battle_result _ winner _) as [[state' lb]|] eqn:E;
    [|discriminate].
  intros [= <- <- <-]. exists pending. eexists. exists state'.
  split; [reflexivity|]. split; [assumption|].
  split; [|split; [exact E|auto]].
  destruct (decide (winner = model_a pending)) as [->|Hwa]; [auto|].
  destruct Hin as [->| ->]; [congruence|auto].
Qed.

(** When [submit_result] does not answer with a leaderboard, the rating
    file is left as it was. *)
Lemma submit_result_failure token winner s :
  (exists leaderboard total,
     (submit_result token winner s).1 = RespLeaderboard leaderboard total) \/
  (ELO_FILE (submit_result token winner s).2 = ELO_FILE s /\
   ((exists e, (submit_result token winner s).1 = RespError e) \/
    (exists e, (submit_result token winner s).1 = RespException e))).
Proof.
  unfold submit_result.
  destruct (ACTIVE_BATTLES s !! token) as [pending|];
    [|right; split; [reflexivity|left; eauto]].
  destruct (decide (winner ∉ _));
    [right; split; [reflexivity|left; eauto]|].
  destruct (elements _) as [|loser rest];
    [right; split; [reflexivity|right; eauto]|].
  unfold update_state.
  destruct (_record_battle_result _ winner loser) as [[state' lb]|e]; simpl.
  - left. eauto.
  - right. split; [reflexivity|]. right. eauto.
Qed.

(** ** Runs *)

Lemma run_cons q qs s :
  run (q :: qs) s =
  ((handle q s).1 :: (run qs (handle q s).2).1, (run qs (handle q s).2).2).
Proof.
  simpl. destruct (handle q s) as [resp s1]. simpl.
  now destruct (run qs s1) as [resps s2].
Qed.

(** A request and its response are a recorded vote. *)
Definition is_vote (q : request) (resp : response) : bool :=
  match q, resp with
  | PostBattleResult _ _, RespLeaderboard _ _ => true
  | _, _ => false
  end.


Lemma load_state_total file : total_votes (_load_state file) = stored_total file.
Proof. now rewrite load_state_eq. Qed.

Lemma select_battle_file r s : ELO_FILE (select_battle r s).2 = ELO_FILE s.
Proof.
  destruct (select_battle r s) as [[c|e] s'] eqn:E; simpl.
  - apply select_battle_Ok in E.
    destruct E as (? & ? & ? & ? & ? & _ & _ & _ & _ & _ & _ & ->). reflexivity.
  - apply select_battle_Raise in E. now subst.
Qed.




(** [q] registers a battle under [token]. *)
Definition mints (token : string) (q : request) : Prop :=
  match q with
  | GetBattle r => uuid4 r = token
  | _ => False
  end.

Lemma handle_absent token q s :
  ~ mints token q ->
  ACTIVE_BATTLES s !! token = None ->
  ACTIVE_BATTLES (handle q s).2 !! token = None.
Proof.
  intros Hq Hs. destruct q as [|r|battle_id winner]; simpl in *.
  - assumption.
  - unfold api_battle. destruct (select_battle r s) as [[c|e] s'] eqn:E; simpl.
    + apply select_battle_Ok in E.
      destruct E as (? & ? & ? & ? & ? & _ & _ & _ & _ & _ & _ & ->). simpl.
      now rewrite lookup_insert_ne.
    + apply select_battle_Raise in E. now subst.
  - unfold api_battle_result. destruct (falsy battle_id || falsy winner); simpl.
    + assumption.
    + rewrite submit_result_ledger. now apply lookup_delete_None; right.
Qed.

Lemma run_absent token qs s :
  Forall (fun q => ~ mints token q) qs ->
  ACTIVE_BATTLES s !! token = None ->
  ACTIVE_BATTLES (run qs s).2 !! token = None.
Proof.
  intros Hqs. revert s. induction Hqs as [|q qs Hq Hqs IH]; intros s Hs.
  - assumption.
  - rewrite run_cons. simpl. apply IH. now apply handle_absent.
Qed.

(** C1: once [submit_result] has succeeded for a token, the token is no
    longer in the ledger, and after any further requests (none of which
    registers a new battle under the same uuid) a [submit_result] with that
    token, for any winner, answers [UnknownToken] and changes nothing. *)
Theorem token_consumed_at_most_once token winner s leaderboard total s1 :
  submit_result token winner s = (RespLeaderboard leaderboard total, s1) ->
  ACTIVE_BATTLES s1 !! token = None /\
  forall qs winner',
    Forall (fun q => ~ mints token q) qs ->
    let s2 := (run qs s1).2 in
    submit_result token winner' s2 = (RespError UnknownToken, s2).
Proof.
  intros H.
  assert (Hgone : ACTIVE_BATTLES s1 !! token = None).
  { change s1 with (RespLeaderboard leaderboard total, s1).2. rewrite <- H.
    rewrite submit_result_ledger. apply lookup_delete_eq. }
  split; [assumption|].
  intros qs winner' Hqs s2. apply submit_result_unknown.
  now apply run_absent.
Qed.

(** ** The rating lookups of a vote *)

(** Every pending comparison names two roster items. *)
Definition ledger_in_roster (s : system) : Prop :=
  forall token pending,
    ACTIVE_BATTLES s !! token = Some pending ->
    model_a pending ∈ MODELS /\ model_b pending ∈ MODELS.

(** The service starts with an empty ledger; the file may hold anything. *)
Definition start (file : option document) : system :=
  {| ACTIVE_BATTLES := ∅; ELO_FILE := file |}.

Lemma handle_ledger_in_roster q s :
  ledger_in_roster s -> ledger_in_roster (handle q s).2.
Proof.
  intros Hs. destruct q as [|r|battle_id winner]; simpl.
  - assumption.
  - unfold api_battle. destruct (select_battle r s) as [[c|e] s'] eqn:E; simpl.
    + apply select_battle_Ok in E.
      destruct E as (models & a & b & ? & ? & Hm & Hpos & _ & _ & _ & _ & ->).
      destruct Hpos as (i & j & _ & Hi & Hj).
      apply list_elem_of_lookup_2 in Hi, Hj.
      intros token pending. simpl.
      destruct (decide (uuid4 r = token)) as [->|Hne].
      * rewrite lookup_insert_eq. intros [= <-]. simpl.
        split; eapply CATEGORY_INDEX_roster; eassumption.
      * rewrite lookup_insert_ne by assumption. apply Hs.
    + apply select_battle_Raise in E. now subst.
  - unfold api_battle_result. destruct (falsy battle_id || falsy winner); simpl.
    + assumption.
    + intros token pending. rewrite submit_result_ledger.
      rewrite lookup_delete_Some. intros [_ H]. eapply Hs. eassumption.
Qed.

Lemma run_ledger_in_roster qs s :
  ledger_in_roster s -> ledger_in_roster (run qs s).2.
Proof.
  revert s. induction qs as [|q qs IH]; intros s Hs; [assumption|].
  rewrite run_cons. simpl. now apply IH, handle_ledger_in_roster.
Qed.

Lemma submit_result_lookup_found token winner s key :
  ledger_in_roster s ->
  (submit_result token winner s).1 <> RespException (KeyError key).
Proof.
  intros Hs. unfold submit_result.
  destruct (ACTIVE_BATTLES s !! token) as [pending|] eqn:Hp; [|discriminate].
  destruct (decide (winner ∉ _)) as [|Hin]; [discriminate|].
  apply dec_stable in Hin. rewrite (pop_other_contender _ _ _ Hin).
  apply elem_of_union in Hin. rewrite !elem_of_singleton in Hin.
  destruct (decide (model_a pending = model_b pending)) as [|Hab]; [discriminate|].
  destruct (Hs token pending Hp) as [Ha Hb].
  set (loser := if decide (winner = model_a pending)
                then model_b pending else model_a pending).
  assert (Hw : winner ∈ MODELS) by (destruct Hin; now subst).
  assert (Hl : loser ∈ MODELS) by (subst loser; now destruct (decide _)).
  unfold update_state, _record_battle_result.
  destruct (elo_update _ winner loser _) as [elos'|e] eqn:E; simpl;
    [discriminate|].
  apply elo_update_raise in E.
  destruct (load_state_has_roster (ELO_FILE s) winner Hw) as [[x Hx] _].
  destruct (load_state_has_roster (ELO_FILE s) loser Hl) as [[y Hy] _].
  destruct E as [[_ E]|[[_ E]| ->]]; [congruence|congruence|discriminate].
Qed.

Lemma handle_lookup_found q s key :
  ledger_in_roster s -> (handle q s).1 <> RespException (KeyError key).
Proof.
  intros Hs. destruct q as [|r|battle_id winner]; simpl.
  - discriminate.
  - unfold api_battle. destruct (decide (CATEGORY_INDEX = ∅)) as [E|Hne].
    + unfold select_battle. destruct (decide (CATEGORY_INDEX = ∅));
        [discriminate|contradiction].
    + destruct (select_battle_total r s Hne) as [c [s' ->]]. discriminate.
  - unfold api_battle_result. destruct (falsy battle_id || falsy winner);
      [discriminate|].
    now apply submit_result_lookup_found.
Qed.

Lemma run_lookup_found qs s :
  ledger_in_roster s ->
  Forall (fun resp => forall key, resp <> RespException (KeyError key)) (run qs s).1.
Proof.
  revert s. induction qs as [|q qs IH]; intros s Hs.
  - constructor.
  - rewrite run_cons. simpl. constructor.
    + intros key. now apply handle_lookup_found.
    + now apply IH, handle_ledger_in_roster.
Qed.

Lemma start_ledger_in_roster file : ledger_in_roster (start file).
Proof. intros token pending. simpl. now rewrite lookup_empty. Qed.

(** C10: every load returns a rating for every roster item; in every state
    the service reaches from an empty ledger each pending comparison names
    two roster items; so a [submit_result] made in such a state, and every
    response of a run, never is the [KeyError] of a rating lookup (nor of
    any other dictionary lookup). *)
Theorem rating_lookup_never_misses :
  (forall file m, m ∈ MODELS -> is_Some (Dict.get (elos (_load_state file)) m)) /\
  (forall file qs, ledger_in_roster (run qs (start file)).2) /\
  (forall file qs token winner key,
     (submit_result token winner (run qs (start file)).2).1
     <> RespException (KeyError key)) /\
  (forall file qs,
     Forall (fun resp => forall key, resp <> RespException (KeyError key))
            (run qs (start file)).1).
Proof.
  split; [|split; [|split]].
  - intros file m Hm. now apply load_state_has_roster.
  - intros file qs. apply run_ledger_in_roster, start_ledger_in_roster.
  - intros file qs token winner key. apply submit_result_lookup_found.
    apply run_ledger_in_roster, start_ledger_in_roster.
  - intros file qs. apply run_lookup_found, start_ledger_in_roster.
Qed.

(** ** Further facts *)

(** The guard of [api_battle_result]: when [battle_id] or [winner] is absent
    or empty the answer is [MissingField] and nothing changes, the ledger
    included; otherwise the handler is the ledger protocol on the two
    strings. *)
Lemma api_battle_result_guard battle_id winner s :
  api_battle_result battle_id winner s =
  match battle_id, winner with
  | Some (String a t), Some (String b w) =>
      submit_result (String a t) (String b w) s
  | _, _ => (RespError MissingField, s)
  end.
Proof.
  unfold api_battle_result.
  destruct battle_id as [[|a t]|], winner as [[|b w]|]; reflexivity.
Qed.

(** A comparison returned by [select_battle] is registered in the ledger
    under the uuid drawn for it, with its two contestants and no winner; the
    rating file is not written; and each contestant carries its rank on the
    leaderboard of the state read from the file. *)
Theorem select_battle_registers r s c s' :
  select_battle r s = (Ok c, s') ->
  exists first second,
    contestants c = [first; second] /\
    battle_id c = uuid4 r /\
    ACTIVE_BATTLES s' =
      <[uuid4 r := {| battle_winner := None;
                      model_a := contestant_id first;
                      model_b := contestant_id second |}]> (ACTIVE_BATTLES s) /\
    ELO_FILE s' = ELO_FILE s /\
    let state := _load_state (ELO_FILE s) in
    let rank_lookup :=
      rank_lookup_of (build_leaderboard (elos state) (votes state)) in
    contestant_rank first = Dict.get rank_lookup (contestant_id first) /\
    contestant_rank second = Dict.get rank_lookup (contestant_id second).
Proof.
  intros H. apply select_battle_Ok in H.
  destruct H as (models & a & b & first & second & _ & _ & Ha & Hb & Hc & Hid & ->).
  apply make_contestant_spec in Ha as (Ida & Hra & _).
  apply make_contestant_spec in Hb as (Idb & Hrb & _).
  exists first, second. simpl. rewrite Ida, Idb. auto 10.
Qed.

(** Every entry of the category index lists, in roster order, the roster
    models that have a joke in the category, and they are at least two. *)
Theorem category_index_entries c models :
  CATEGORY_INDEX !! c = Some models ->
  2 <= length models /\
  models = filter (fun m => has_jokes c m = true) MODELS /\
  (forall m, m ∈ models <->
     m ∈ MODELS /\ exists pool, jokes_of m c = Some pool /\ pool <> []).
Proof.
  intros H. apply CATEGORY_INDEX_lookup in H as [-> Hlen].
  split; [assumption|]. split; [reflexivity|].
  intros m. rewrite list_elem_of_filter, has_jokes_pool. tauto.
Qed.

Lemma imap_models (f : nat -> string * float -> entry) (l : list (string * float)) :
  (forall i x, entry_model (f i x) = x.1) ->
  entry_model <$> imap f l = l.*1.
Proof.
  revert f. induction l as [|x l IH]; intros f Hf; simpl; [reflexivity|].
  rewrite Hf. f_equal. apply IH. intros i y. apply Hf.
Qed.

(** Ratings already in descending order keep their order on the
    leaderboard: equal ratings are ranked in the order of the ratings map. *)
Theorem leaderboard_ties_keep_order (elos : list (string * float)) votes :
  Forall (fun item => FloatOrder.not_nan item.2) elos ->
  StronglySorted ge_rating elos ->
  entry_model <$> build_leaderboard elos votes = Dict.keys elos.
Proof.
  intros Hn Hs. unfold build_leaderboard.
  rewrite (sorted_desc_stable elos Hn Hs).
  now apply imap_models.
Qed.

(** ** Reads, writes and the vote counters *)

(** A request leaves the rating file as it was, or it is a vote recorded on
    the state loaded from the file and then saved. *)
Lemma handle_file q s :
  ELO_FILE (handle q s).2 = ELO_FILE s /\ is_vote q (handle q s).1 = false \/
  exists winner loser state' leaderboard,
    _record_battle_result (_load_state (ELO_FILE s)) winner loser
      = Ok (state', leaderboard) /\
    (handle q s).1 = RespLeaderboard leaderboard (total_votes state') /\
    is_vote q (handle q s).1 = true /\
    (handle q s).2.(ELO_FILE) = Some (_save_state state').
Proof.
  destruct q as [|r|token winner]; simpl.
  - left. auto.
  - left. unfold api_battle. pose proof (select_battle_file r s) as H.
    destruct (select_battle r s) as [[c|e] s']; simpl in *; auto.
  - unfold api_battle_result.
    destruct (falsy token || falsy winner); simpl; [left; auto|].
    destruct (submit_result (default "" token) (default "" winner) s)
      as [resp s'] eqn:E.
    destruct (submit_result_failure (default "" token) (default "" winner) s)
      as [[lb [total H]]|[Hf [[e H]|[e H]]]]; rewrite E in *; simpl in *;
      subst resp; auto.
    right. apply submit_result_success in E.
    destruct E as (pending & loser & state' & _ & _ & _ & Hr & -> & ->).
    exists (default "" winner), loser, state', lb. auto.
Qed.

(** Only a recorded vote writes the rating file: a request that is answered
    with anything else (a leaderboard read, a battle, a client error, an
    exception) leaves the file as it was, absent if it was absent. *)
Theorem only_votes_write_file q s :
  is_vote q (handle q s).1 = false ->
  ELO_FILE (handle q s).2 = ELO_FILE s.
Proof.
  intros H. destruct (handle_file q s) as [[Hf _]|Hv]; [assumption|].
  destruct Hv as (? & ? & ? & ? & _ & _ & Hv & _). congruence.
Qed.

(** The leaderboard and the total returned by a successful vote are what
    [api_leaderboard] returns right after it. *)
Theorem vote_then_leaderboard_agree token winner s leaderboard total s' :
  submit_result token winner s = (RespLeaderboard leaderboard total, s') ->
  api_leaderboard s' = (RespLeaderboard leaderboard total, s').
Proof.
  intros H. apply submit_result_success in H.
  destruct H as (pending & loser & state' & _ & _ & _ & Hr & -> & ->).
  unfold api_leaderboard, read_state. simpl.
  rewrite (load_recorded _ _ _ _ _ Hr).
  apply record_battle_result_inv in Hr as (_ & _ & _ & ->). reflexivity.
Qed.

(** The sum of the vote counts of a votes map *)
Definition sum_votes (votes : list (string * Z)) : Z :=
  foldr (fun item acc => (item.2 + acc)%Z) 0%Z votes.

(** In the state loaded from [file] the vote counts add up to [total_votes]. *)
Definition votes_balanced (file : option document) : Prop :=
  sum_votes (votes (_load_state file)) = total_votes (_load_state file).

Lemma sum_votes_app d1 d2 :
  sum_votes (d1 ++ d2) = (sum_votes d1 + sum_votes d2)%Z.
Proof. induction d1 as [|[k v] d1 IH]; simpl in *; lia. Qed.

Lemma sum_votes_setdefaults d ks :
  sum_votes (setdefaults d ks 0%Z) = sum_votes d.
Proof.
  revert d. induction ks as [|k ks IH]; intros d; [reflexivity|].
  unfold setdefaults in *. simpl. rewrite IH. unfold Dict.setdefault.
  destruct (Dict.get d k); [reflexivity|].
  rewrite sum_votes_app. simpl. lia.
Qed.

Lemma sum_votes_increment d k :
  sum_votes (Dict.set d k (default 0 (Dict.get d k) + 1)%Z)
  = (sum_votes d + 1)%Z.
Proof.
  induction d as [|[k0 v0] d IH]; simpl; [lia|].
  destruct (String.eqb k0 k); simpl; lia.
Qed.

Lemma handle_votes_balanced q s :
  votes_balanced (ELO_FILE s) -> votes_balanced (ELO_FILE (handle q s).2).
Proof.
  intros Hs. destruct (handle_file q s) as [[-> _]|Hv]; [assumption|].
  destruct Hv as (winner & loser & state' & lb & Hr & _ & _ & ->).
  unfold votes_balanced in *. rewrite (load_recorded _ _ _ _ _ Hr).
  apply record_battle_result_inv in Hr as (_ & -> & -> & _).
  rewrite sum_votes_increment. lia.
Qed.

(** The vote counts of the models add up to [total_votes] after every run
    of requests, if they did before it; they do when there is no file. *)
Theorem votes_sum_is_total qs s :
  votes_balanced (ELO_FILE s) ->
  votes_balanced (ELO_FILE (run qs s).2) /\ votes_balanced None.
Proof.
  intros Hs. split.
  - revert s Hs. induction qs as [|q qs IH]; intros s Hs; [assumption|].
    rewrite run_cons. simpl. now apply IH, handle_votes_balanced.
  - unfold votes_balanced. rewrite load_state_eq. simpl.
    now rewrite sum_votes_setdefaults.
Qed.

(** ** The ledger between a battle and its result *)

(** [q] posts a result for [token]. *)
Definition posts (token : string) (q : request) : Prop :=
  match q with
  | PostBattleResult (Some t) _ => t = token
  | _ => False
  end.

Lemma handle_pending_stays token pending q s :
  ~ mints token q -> ~ posts token q ->
  ACTIVE_BATTLES s !! token = Some pending ->
  ACTIVE_BATTLES (handle q s).2 !! token = Some pending.
Proof.
  intros Hm Hp Hs. destruct q as [|r|battle_id winner]; simpl in *.
  - assumption.
  - unfold api_battle. destruct (select_battle r s) as [[c|e] s'] eqn:E; simpl.
    + apply select_battle_Ok in E.
      destruct E as (? & ? & ? & ? & ? & _ & _ & _ & _ & _ & _ & ->). simpl.
      now rewrite lookup_insert_ne.
    + apply select_battle_Raise in E. now subst.
  - unfold api_battle_result.
    destruct (falsy battle_id || falsy winner) eqn:F; simpl; [assumption|].
    rewrite submit_result_ledger.
    destruct battle_id as [t|]; [|discriminate]. simpl.
    now rewrite lookup_delete_ne.
Qed.

(** A pending comparison is never dropped by the service on its own: it
    stays in the ledger, unchanged, through every request that neither posts
    a result for its token nor registers a battle under the same uuid. *)
Theorem pending_battle_stays token pending qs s :
  ACTIVE_BATTLES s !! token = Some pending ->
  Forall (fun q => ~ mints token q /\ ~ posts token q) qs ->
  ACTIVE_BATTLES (run qs s).2 !! token = Some pending.
Proof.
  intros Hs Hqs. revert s Hs.
  induction Hqs as [|q qs [Hm Hp] Hqs IH]; intros s Hs; [assumption|].
  rewrite run_cons. simpl. apply IH. now apply handle_pending_stays.
Qed.

(** The first recorded vote rewrites the rating file in the current format
    whatever it was before (absent, legacy or current): all three fields are
    there, every roster item has a rating and a vote count, no item of the
    old file is dropped, and the stored total is the old one plus one. *)
Theorem vote_writes_current_format token winner s leaderboard total s' :
  submit_result token winner s = (RespLeaderboard leaderboard total, s') ->
  exists elos' votes',
    ELO_FILE s' = Some (StateDoc elos' (Some votes')
                                 (Some (stored_total (ELO_FILE s) + 1)%Z)) /\
    (forall m, m ∈ MODELS ->
       is_Some (Dict.get elos' m) /\ is_Some (Dict.get votes' m)) /\
    (forall k, is_Some (Dict.get (stored_elos (ELO_FILE s)) k) ->
       is_Some (Dict.get elos' k)) /\
    (forall k, is_Some (Dict.get (stored_votes (ELO_FILE s)) k) ->
       is_Some (Dict.get votes' k)).
Proof.
  intros H. apply submit_result_success in H.
  destruct H as (pending & loser & state' & _ & _ & _ & Hr & _ & ->).
  apply record_battle_result_inv in Hr as (He & Hv & Ht & _).
  apply elo_update_inv in He as (rw & rl & pw & pl & _ & _ & _ & _ & He).
  exists (elos state'), (votes state'). simpl. unfold _save_state.
  rewrite Ht, load_state_total. split; [reflexivity|].
  rewrite He, Hv. split; [|split].
  - intros m Hm.
    destruct (load_state_has_roster (ELO_FILE s) m Hm) as [H1 H2].
    split; repeat apply Dict.get_set_is_Some; assumption.
  - intros k [x Hk]. repeat apply Dict.get_set_is_Some.
    rewrite load_state_eq. simpl. rewrite get_setdefaults, Hk. eauto.
  - intros k [x Hk]. apply Dict.get_set_is_Some.
    rewrite load_state_eq. simpl. rewrite get_setdefaults, Hk. eauto.
Qed.

(** ** Ranks shown with a battle *)

Lemma rank_lookup_of_snoc lb e :
  rank_lookup_of (lb ++ [e])
  = Dict.set (rank_lookup_of lb) (entry_model e) (entry_rank e).
Proof. unfold rank_lookup_of. now rewrite foldl_snoc. Qed.

Lemma rank_lookup_of_get lb m :
  m ∈ entry_model <$> lb ->
  exists e, e ∈ lb /\ entry_model e = m /\
            Dict.get (rank_lookup_of lb) m = Some (entry_rank e).
Proof.
  induction lb as [|e lb IH] using rev_ind; [intros H; inversion H|].
  rewrite fmap_app, elem_of_app, rank_lookup_of_snoc. intros Hm.
  destruct (decide (entry_model e = m)) as [<-|Hne].
  - exists e. rewrite elem_of_app, Dict.get_set_eq.
    split; [right; left|auto].
  - destruct Hm as [Hm|Hm].
    + destruct (IH Hm) as (e' & He' & Hm' & Hg).
      exists e'. rewrite elem_of_app, Dict.get_set_ne by assumption. auto.
    + simpl in Hm. apply list_elem_of_singleton in Hm. congruence.
Qed.

(** The rank sent with a contestant is never the ["-"] sentinel: it is the
    rank of an entry for that model on the leaderboard of the state read
    from the file. *)
Theorem contestant_rank_on_leaderboard r s c ct :
  (select_battle r s).1 = Ok c ->
  ct ∈ contestants c ->
  let state := _load_state (ELO_FILE s) in
  exists i e,
    build_leaderboard (elos state) (votes state) !! i = Some e /\
    entry_model e = contestant_id ct /\
    contestant_rank ct = Some (entry_rank e) /\
    entry_rank e = S i.
Proof.
  intros H Hct state. destruct (select_battle r s) as [res s'] eqn:E.
  simpl in H. subst res. apply select_battle_Ok in E.
  destruct E as (models & a & b & first & second & Hm & Hpos & Ha & Hb & Hc & _).
  destruct Hpos as (i & j & _ & Hi & Hj).
  apply list_elem_of_lookup_2 in Hi, Hj.
  destruct (CATEGORY_INDEX_roster _ _ _ Hm Hi) as [Hra _].
  destruct (CATEGORY_INDEX_roster _ _ _ Hm Hj) as [Hrb _].
  apply make_contestant_spec in Ha as (Ida & Rka & _).
  apply make_contestant_spec in Hb as (Idb & Rkb & _).
  unfold read_state in *. fold state in Rka, Rkb.
  assert (Hrank : forall m, m ∈ MODELS ->
    exists k e, build_leaderboard (elos state) (votes state) !! k = Some e /\
      entry_model e = m /\
      Dict.get (rank_lookup_of (build_leaderboard (elos state) (votes state))) m
        = Some (entry_rank e) /\
      entry_rank e = S k).
  { intros m Hmr.
    destruct (load_state_has_roster (ELO_FILE s) m Hmr) as [[x Hx] _].
    fold state in Hx. apply Dict.get_Some_elem in Hx.
    rewrite <- (sorted_desc_perm (elos state)) in Hx.
    assert (Hin : m ∈ entry_model <$> build_leaderboard (elos state) (votes state)).
    { unfold build_leaderboard. rewrite imap_models by reflexivity.
      apply list_elem_of_fmap. exists (m, x). auto. }
    apply rank_lookup_of_get in Hin as (e & He & Hem & Hg).
    apply list_elem_of_lookup_1 in He as [k Hk].
    exists k, e. repeat split; try assumption.
    apply build_leaderboard_lookup in Hk as (item & _ & ->). reflexivity. }
  rewrite Hc in Hct. apply elem_of_cons in Hct as [->|Hct].
  - destruct (Hrank a Hra) as (k & e & Hk & Hem & Hg & Hr).
    exists k, e. rewrite Ida, Rka. auto.
  - apply list_elem_of_singleton in Hct as ->.
    destruct (Hrank b Hrb) as (k & e & Hk & Hem & Hg & Hr).
    exists k, e. rewrite Idb, Rkb. auto.
Qed.

(** ** More on loading *)

Lemma filter_ext_elem {A} (P1 P2 : A -> Prop)
    `{!forall x, Decision (P1 x), !forall x, Decision (P2 x)} (l : list A) :
  (forall x, x ∈ l -> (P1 x <-> P2 x)) -> filter P1 l = filter P2 l.
Proof.
  induction l as [|a l IH]; intros Hext; [reflexivity|].
  rewrite !filter_cons.
  assert (Ha : P1 a <-> P2 a) by (apply Hext; left).
  rewrite IH by (intros x Hx; apply Hext; now right).
  destruct (decide (P1 a)), (decide (P2 a)); tauto.
Qed.

Lemma setdefaults_app {V} (d : list (string * V)) ks v :
  NoDup ks ->
  setdefaults d ks v
  = d ++ ((fun k => (k, v)) <$> filter (fun k => Dict.get d k = None) ks).
Proof.
  intros Hnd. revert d. induction Hnd as [|k ks Hk Hnd IH]; intros d.
  - unfold setdefaults. simpl. now rewrite app_nil_r.
  - unfold setdefaults in *. simpl. rewrite IH. rewrite filter_cons.
    unfold Dict.setdefault. destruct (Dict.get d k) as [x|] eqn:E.
    + destruct (decide (Some x = None)); [discriminate|reflexivity].
    + destruct (decide (None = None)); [|contradiction].
      rewrite <- app_assoc. simpl. do 3 f_equal.
      apply filter_ext_elem. intros m Hm.
      rewrite Dict.get_app. destruct (Dict.get d m); [tauto|]. simpl.
      destruct (String.eqb_spec k m) as [->|]; [contradiction|tauto].
Qed.

(** With a roster that lists no model twice, a load returns the stored
    ratings and vote counts as they are and in their order, followed by one
    default entry (1500.0, 0) for each roster model the file lacks, in roster
    order. *)
Theorem load_appends_missing_roster file :
  NoDup MODELS ->
  elos (_load_state file)
  = stored_elos file ++
    ((fun m => (m, 1500%float)) <$>
       filter (fun m => Dict.get (stored_elos file) m = None) MODELS) /\
  votes (_load_state file)
  = stored_votes file ++
    ((fun m => (m, 0%Z)) <$>
       filter (fun m => Dict.get (stored_votes file) m = None) MODELS).
Proof.
  intros Hnd. rewrite load_state_eq. simpl.
  split; now apply setdefaults_app.
Qed.

(** What a load returns is stable: saving it and loading again gives the
    same state, whatever the file was (absent, legacy, missing fields or
    models). *)
Theorem load_save_load file :
  _load_state (Some (_save_state (_load_state file))) = _load_state file.
Proof.
  rewrite (load_state_eq (Some _)). simpl.
  rewrite !setdefaults_present.
  - now destruct (_load_state file).
  - intros m Hm. now apply load_state_has_roster.
  - intros m Hm. now apply load_state_has_roster.
Qed.

(** ** The leaderboard of a fresh arena *)

(** The ratings and the votes of the loaded state are keyed by the roster,
    in its order. *)
Definition roster_keyed (file : option document) : Prop :=
  Dict.keys (elos (_load_state file)) = MODELS /\
  Dict.keys (votes (_load_state file)) = MODELS.

Lemma filter_all {A} (P : A -> Prop) `{!forall x, Decision (P x)} (l : list A) :
  (forall x, x ∈ l -> P x) -> filter P l = l.
Proof.
  induction l as [|a l IH]; intros Hall; [reflexivity|].
  rewrite filter_cons. destruct (decide (P a)) as [|Hn].
  - f_equal. apply IH. intros x Hx. apply Hall. now right.
  - exfalso. apply Hn, Hall. left.
Qed.

Lemma roster_keyed_None : NoDup MODELS -> roster_keyed None.
Proof.
  intros Hnd. unfold roster_keyed. rewrite load_state_eq. simpl.
  rewrite !setdefaults_app by assumption. simpl. unfold Dict.keys.
  rewrite !filter_all by reflexivity.
  rewrite <- !list_fmap_compose. split; apply list_fmap_id.
Qed.

Lemma handle_roster_keyed q s :
  roster_keyed (ELO_FILE s) -> roster_keyed (ELO_FILE (handle q s).2).
Proof.
  intros Hs. destruct (handle_file q s) as [[-> _]|Hv]; [assumption|].
  destruct Hv as (winner & loser & state' & lb & Hr & _ & _ & ->).
  unfold roster_keyed in *. rewrite (load_recorded _ _ _ _ _ Hr).
  destruct Hs as [He Hv].
  apply record_battle_result_inv in Hr as (Hu & Hvs & _ & _).
  apply elo_update_inv in Hu as (rw & rl & pw & pl & Hw & Hl & _ & _ & Hu).
  rewrite Hu, Hvs. split.
  - rewrite !Dict.keys_set_present; [assumption|eauto|].
    apply Dict.get_set_is_Some. eauto.
  - rewrite Dict.keys_set_present; [assumption|].
    destruct (Dict.get (votes (_load_state (ELO_FILE s))) winner) eqn:E;
      [eauto|].
    apply Dict.get_None_keys in E. rewrite Hv, <- He in E.
    exfalso. apply E. apply Dict.get_Some_elem in Hw.
    unfold Dict.keys. apply list_elem_of_fmap. exists (winner, rw). auto.
Qed.

Lemma run_roster_keyed qs s :
  roster_keyed (ELO_FILE s) -> roster_keyed (ELO_FILE (run qs s).2).
Proof.
  revert s. induction qs as [|q qs IH]; intros s Hs; [assumption|].
  rewrite run_cons. simpl. now apply IH, handle_roster_keyed.
Qed.

(** In an arena that starts without a rating file, with a roster that lists
    no model twice, the leaderboard served after any run of requests lists
    exactly the roster, each model once, and the stored ratings and vote
    counts stay keyed by the roster in roster order. *)
Theorem fresh_leaderboard_is_roster qs ledger :
  NoDup MODELS ->
  let s' := (run qs {| ACTIVE_BATTLES := ledger; ELO_FILE := None |}).2 in
  let state := _load_state (ELO_FILE s') in
  Dict.keys (elos state) = MODELS /\
  Dict.keys (votes state) = MODELS /\
  entry_model <$> build_leaderboard (elos state) (votes state) ≡ₚ MODELS.
Proof.
  intros Hnd s' state.
  destruct (run_roster_keyed qs {| ACTIVE_BATTLES := ledger; ELO_FILE := None |}
              (roster_keyed_None Hnd)) as [He Hv].
  fold s' in He, Hv. fold state in He, Hv.
  split; [assumption|]. split; [assumption|].
  unfold build_leaderboard. rewrite imap_models by reflexivity.
  rewrite sorted_desc_perm. change (Dict.keys (elos state) ≡ₚ MODELS).
  now rewrite He.
Qed.

(** ** Edge cases of a battle *)

(** With fewer than two models on the roster no category is eligible:
    every [select_battle] raises [NoEligibleCategory] and changes nothing,
    whatever the jokes are. *)
Theorem small_roster_no_battle r s :
  length MODELS < 2 ->
  select_battle r s = (Raise NoEligibleCategory, s).
Proof.
  intros Hlen. unfold select_battle.
  destruct (decide (CATEGORY_INDEX = ∅)) as [|Hne]; [reflexivity|].
  exfalso. apply Hne. apply map_empty. intros c.
  destruct (CATEGORY_INDEX !! c) as [l|] eqn:E; [|reflexivity].
  apply CATEGORY_INDEX_lookup in E as [-> Hl].
  pose proof (length_filter (fun m => has_jokes c m = true) MODELS). lia.
Qed.

(** A pending comparison whose two items are the same model (which a roster
    with a repeated row can produce) cannot be decided: the vote for that
    model ends in the [KeyError] of [pop] on an empty set, the token is
    consumed and the rating file is not written. *)
Theorem same_model_twice_cannot_be_decided token pending s :
  ACTIVE_BATTLES s !! token = Some pending ->
  model_a pending = model_b pending ->
  submit_result token (model_a pending) s
  = (RespException KeyError_pop_empty_set,
     {| ACTIVE_BATTLES := delete token (ACTIVE_BATTLES s);
        ELO_FILE := ELO_FILE s |}).
Proof.
  intros Hp Hab. unfold submit_result. rewrite Hp.
  assert (Hin : model_a pending
                ∈ ({[ model_a pending; model_b pending ]} : gset string))
    by (rewrite elem_of_union, !elem_of_singleton; auto).
  destruct (decide (model_a pending ∉ _)) as [Hn|_]; [contradiction|].
  rewrite (pop_other_contender _ _ _ Hin).
  destruct (decide (model_a pending = model_b pending)); [reflexivity|contradiction].
Qed.

Lemma api_battle_result_strings token winner s :
  token <> "" -> winner <> "" ->
  api_battle_result (Some token) (Some winner) s = submit_result token winner s.
Proof.
  intros Ht Hw. unfold api_battle_result, falsy.
  rewrite !bool_decide_eq_false_2 by assumption. reflexivity.
Qed.


(** Both powers of the update between ratings [ra] and [rb] have a value
    (the same two powers whichever of the two wins). *)
Definition powers_defined (ra rb : float) : Prop :=
  is_Some (pow 10 ((rb - ra) / 400)) /\ is_Some (pow 10 ((ra - rb) / 400)).

Lemma elo_update_defined elos winner loser k rw rl :
  Dict.get elos winner = Some rw -> Dict.get elos loser = Some rl ->
  (powers_defined rw rl -> exists elos', elo_update elos winner loser k = Ok elos') /\
  (~ powers_defined rw rl -> elo_update elos winner loser k = Raise OverflowError).
Proof.
  intros Hw Hl. unfold powers_defined, elo_update, dict_index, float_pow.
  rewrite Hw, Hl. simpl.
  destruct (pow 10 ((rl - rw) / 400)) as [pw|]; simpl.
  - destruct (pow 10 ((rw - rl) / 400)) as [pl|]; simpl.
    + split; [eauto|]. intros H. exfalso. apply H. split; eauto.
    + split; [|reflexivity]. intros [_ [x Hx]]. discriminate.
  - split; [|reflexivity]. intros [[x Hx] _]. discriminate.
Qed.

Lemma powers_defined_sym ra rb : powers_defined ra rb <-> powers_defined rb ra.
Proof. unfold powers_defined. tauto. Qed.

(** Every comparison [select_battle] returns can be decided, for either of
    its contestants, when the roster lists no model twice: posting its token
    with a contestant's identifier (neither of them the empty string, which
    the handler takes for a missing field) is answered with a leaderboard
    and a total one above the stored one when both powers of the update
    between the two contestants' ratings have a value, and ends in
    [OverflowError] when one has not; it is never a client error or a
    [KeyError]. *)
Theorem issued_battle_can_be_decided r s c s' :
  NoDup MODELS ->
  select_battle r s = (Ok c, s') ->
  battle_id c <> "" ->
  let state := _load_state (ELO_FILE s) in
  exists first second ra rb,
    contestants c = [first; second] /\
    Dict.get (elos state) (contestant_id first) = Some ra /\
    Dict.get (elos state) (contestant_id second) = Some rb /\
    forall ct, ct ∈ contestants c -> contestant_id ct <> "" ->
      let resp :=
        (api_battle_result (Some (battle_id c)) (Some (contestant_id ct)) s').1 in
      (powers_defined ra rb ->
       exists leaderboard,
         resp = RespLeaderboard leaderboard (total_votes state + 1)%Z) /\
      (~ powers_defined ra rb -> resp = RespException OverflowError).
Proof.
  intros Hnd H Htok state. apply select_battle_Ok in H.
  destruct H as (models & a & b & first & second & Hm & Hpos & Ha & Hb & Hc & Hid & ->).
  destruct Hpos as (i & j & Hij & Hi & Hj).
  assert (Hab : a <> b).
  { intros ->. apply Hij.
    assert (Hndm : NoDup models)
      by (apply CATEGORY_INDEX_lookup in Hm as [-> _]; now apply NoDup_filter).
    eapply NoDup_lookup; eassumption. }
  apply list_elem_of_lookup_2 in Hi, Hj.
  destruct (CATEGORY_INDEX_roster _ _ _ Hm Hi) as [Hra _].
  destruct (CATEGORY_INDEX_roster _ _ _ Hm Hj) as [Hrb _].
  apply make_contestant_spec in Ha as (Ida & _ & _).
  apply make_contestant_spec in Hb as (Idb & _ & _).
  destruct (load_state_has_roster (ELO_FILE s) a Hra) as [[ra Hga] _].
  destruct (load_state_has_roster (ELO_FILE s) b Hrb) as [[rb Hgb] _].
  fold state in Hga, Hgb.
  exists first, second, ra, rb. rewrite Ida, Idb.
  split; [assumption|]. split; [assumption|]. split; [assumption|].
  intros ct Hct Hne.
  assert (Hw : contestant_id ct = a \/ contestant_id ct = b).
  { rewrite Hc in Hct. apply elem_of_cons in Hct as [->|Hct]; [auto|].
    apply list_elem_of_singleton in Hct as ->. auto. }
  set (winner := contestant_id ct) in *.
  rewrite (api_battle_result_strings _ _ _ Htok Hne).
  unfold submit_result. simpl. rewrite Hid, lookup_insert_eq. simpl.
  assert (Hin : winner ∈ ({[ a; b ]} : gset string))
    by (rewrite elem_of_union, !elem_of_singleton; exact Hw).
  destruct (decide (winner ∉ _)) as [Hn|_]; [contradiction|].
  rewrite (pop_other_contender _ _ _ Hin).
  destruct (decide (a = b)); [contradiction|].
  set (loser := if decide (winner = a) then b else a).
  assert (Hrat : exists rw rl,
            Dict.get (elos state) winner = Some rw /\
            Dict.get (elos state) loser = Some rl /\
            (powers_defined ra rb <-> powers_defined rw rl)).
  { subst loser. destruct (decide (winner = a)) as [->|Hwa].
    - exists ra, rb. tauto.
    - destruct Hw as [Hw|Hw]; [contradiction|]. rewrite Hw.
      exists rb, ra. split; [assumption|]. split; [assumption|].
      apply powers_defined_sym. }
  destruct Hrat as (rw & rl & Hgw & Hgl & Hiff).
  destruct (elo_update_defined (elos state) winner loser 32%float rw rl Hgw Hgl)
    as [Hok Hraise].
  unfold update_state, _record_battle_result. fold state.
  split.
  - intros Hp. apply Hiff in Hp. destruct (Hok Hp) as [elos' ->]. simpl. eauto.
  - intros Hp. rewrite Hraise by (now rewrite <- Hiff). reflexivity.
Qed.

(** ** The ledger over a run *)

Definition is_battle (resp : response) : bool :=
  match resp with
  | RespBattle _ => true
  | _ => false
  end.

(** The number of battles served in a list of responses *)
Definition count_battles (resps : list response) : nat :=
  length (filter (fun resp => is_battle resp = true) resps).

Lemma handle_ledger_size q s :
  size (ACTIVE_BATTLES (handle q s).2)
  <= size (ACTIVE_BATTLES s) + (if is_battle (handle q s).1 then 1 else 0).
Proof.
  destruct q as [|r|battle_id winner]; simpl.
  - lia.
  - unfold api_battle. destruct (select_battle r s) as [[c|e] s'] eqn:E; simpl.
    + apply select_battle_Ok in E.
      destruct E as (? & ? & ? & ? & ? & _ & _ & _ & _ & _ & _ & ->). simpl.
      rewrite map_size_insert.
      destruct (ACTIVE_BATTLES s !! uuid4 r); simpl; lia.
    + apply select_battle_Raise in E. subst. lia.
  - unfold api_battle_result.
    destruct (falsy battle_id || falsy winner); simpl; [lia|].
    rewrite submit_result_ledger, map_size_delete.
    destruct (ACTIVE_BATTLES s !! default "" battle_id); simpl; lia.
Qed.

(** The ledger holds no more pending comparisons than it held before a run
    plus the battles served during it: only [select_battle] adds entries,
    one per battle. *)
Theorem ledger_grows_by_battles_only qs s :
  size (ACTIVE_BATTLES (run qs s).2)
  <= size (ACTIVE_BATTLES s) + count_battles (run qs s).1.
Proof.
  revert s. induction qs as [|q qs IH]; intros s; [simpl; lia|].
  rewrite run_cons. simpl. specialize (IH (handle q s).2).
  pose proof (handle_ledger_size q s) as Hq.
  unfold count_battles in *. rewrite filter_cons.
  destruct (decide (is_battle (handle q s).1 = true)) as [E|E].
  - rewrite E in Hq. simpl. lia.
  - apply not_true_is_false in E. rewrite E in Hq. lia.
Qed.

(** A token that no battle of the run was registered under is unknown: from
    an empty ledger, a result posted for it is answered [UnknownToken] and
    changes nothing. *)
Theorem unissued_token_is_unknown file qs token winner :
  Forall (fun q => ~ mints token q) qs ->
  let s := (run qs (start file)).2 in
  submit_result token winner s = (RespError UnknownToken, s).
Proof.
  intros Hqs s. apply submit_result_unknown.
  apply run_absent; [assumption|]. apply lookup_empty.
Qed.






End Arena.

(** ** A small arena

    A roster of three models, jokes in three categories, and runs of the
    service on them, evaluated. *)

Module Scenario.

Definition roster : list string := ["ada"; "bob"; "cyd"].

(** [ada] and [bob] have puns, [ada] and [cyd] have riddles; only [bob] has
    a limerick, and [cyd]'s list of puns is empty. *)
Definition jokes : gmap string (gmap string (list string)) :=
  list_to_map
    [("ada", list_to_map [("pun", ["pa1"; "pa2"]); ("riddle", ["ra1"])]);
     ("bob", list_to_map [("pun", ["pb1"]); ("limerick", ["lb1"])]);
     ("cyd", list_to_map [("pun", []); ("riddle", ["rc1"; "rc2"])])].

(** [10 ** y] where the runs below use it: [1.0] at [y = 0.0], and
    [OverflowError] from [y = 309.0] on ([10 ** 309] is beyond the largest
    float, about 1.8e308).  No run below calls it at another exponent; NaN
    stands for the values not given here. *)
Definition pow (x y : float) : option float :=
  if PrimFloat.eqb y 0 then Some 1%float
  else if PrimFloat.leb 309 y then None
  else Some (PrimFloat.sqrt (-1)).

(** [round(x, 1)] where the runs below use it: on ratings that have no
    second decimal, which it returns as they are. *)
Definition round1 (x : float) : float := x.

Definition fresh : system := start None.

Definition first_draws : draws :=
  {| draw_category := 1; draw_first := 0; draw_second := 0;
     draw_joke_a := 1; draw_joke_b := 0; uuid4 := "6f1c" |}.

(** After one [GET /api/battle] *)
Definition pending : system := (api_battle roster jokes round1 first_draws fresh).2.

(** After the vote for [bob] in that battle *)
Definition voted : system := (submit_result roster pow round1 "6f1c" "bob" pending).2.

Example category_index :
  CATEGORY_INDEX roster jokes
  = list_to_map [("pun", ["ada"; "bob"]); ("riddle", ["ada"; "cyd"])].
Proof. vm_compute. reflexivity. Qed.

Example first_battle :
  (api_battle roster jokes round1 first_draws fresh).1
  = RespBattle
      {| battle_id := "6f1c"; category := "pun";
         contestants :=
           [ {| contestant_id := "ada"; contestant_joke := "pa2";
                contestant_rank := Some 1 |};
             {| contestant_id := "bob"; contestant_joke := "pb1";
                contestant_rank := Some 2 |} ] |}.
Proof. vm_compute. reflexivity. Qed.

Example first_vote :
  submit_result roster pow round1 "6f1c" "bob" pending
  = (RespLeaderboard
       [ mkEntry 1 "bob" 1516 1; mkEntry 2 "cyd" 1500 0; mkEntry 3 "ada" 1484 0 ]
       1,
     voted).
Proof. vm_compute. reflexivity. Qed.

Example file_after_vote :
  ELO_FILE voted
  = Some (StateDoc [("ada", 1484%float); ("bob", 1516%float); ("cyd", 1500%float)]
                   (Some [("ada", 0%Z); ("bob", 1%Z); ("cyd", 0%Z)])
                   (Some 1%Z)).
Proof. vm_compute. reflexivity. Qed.

(** The same token again, a field left out, and a winner outside the pair *)
Example replay_and_errors :
  (run roster jokes pow round1
     [ GetBattle first_draws;
       PostBattleResult (Some "6f1c") None;
       PostBattleResult (Some "6f1c") (Some "cyd");
       PostBattleResult (Some "6f1c") (Some "ada") ] fresh).1
  = [ (api_battle roster jokes round1 first_draws fresh).1;
      RespError MissingField;
      RespError InvalidWinner;
      RespError UnknownToken ].
Proof. vm_compute. reflexivity. Qed.

(** The token of the first battle, once voted on, stays unknown. *)
Lemma token_consumed_at_most_once_witness :
  ACTIVE_BATTLES voted !! "6f1c" = None /\
  forall qs winner',
    Forall (fun q => ~ mints "6f1c" q) qs ->
    let s2 := (run roster jokes pow round1 qs voted).2 in
    submit_result roster pow round1 "6f1c" winner' s2 = (RespError UnknownToken, s2).
Proof.
  apply (token_consumed_at_most_once roster jokes pow round1 "6f1c" "bob" pending
           [ mkEntry 1 "bob" 1516 1; mkEntry 2 "cyd" 1500 0; mkEntry 3 "ada" 1484 0 ]
           1%Z voted).
  vm_compute. reflexivity.
Defined.

(** 1500.0 against 1500.0 with k = 32.0 *)
Lemma elo_update_simultaneous_witness :
  exists elos',
    elo_update pow [("ada", 1500%float); ("bob", 1500%float)] "bob" "ada" 32
      = Ok elos' /\
    Dict.get elos' "bob" = Some 1516%float /\
    Dict.get elos' "ada" = Some 1484%float.
Proof.
  destruct (elo_update_simultaneous pow
              [("ada", 1500%float); ("bob", 1500%float)] "bob" "ada"
              32 1500 1500)
    as (_ & _ & Hexact).
  - discriminate.
  - reflexivity.
  - reflexivity.
  - apply Hexact; reflexivity.
Defined.

(** Ratings 200000 apart: [10 ** 500.0] raises, and so does the update. *)
Lemma elo_update_overflow :
  elo_update pow [("ada", 0%float); ("bob", 200000%float)] "ada" "bob" 32
    = Raise OverflowError /\
  ~ exists elos',
      elo_update pow [("ada", 0%float); ("bob", 200000%float)] "ada" "bob" 32
        = Ok elos'.
Proof.
  assert (E : elo_update pow [("ada", 0%float); ("bob", 200000%float)]
                "ada" "bob" 32 = Raise OverflowError)
    by (vm_compute; reflexivity).
  split; [exact E|]. intros [elos' H]. rewrite E in H. discriminate.
Qed.

(** [cyd] is not in the first battle. *)
Lemma invalid_winner_consumes_token_witness :
  submit_result roster pow round1 "6f1c" "cyd" pending
  = (RespError InvalidWinner,
     {| ACTIVE_BATTLES := delete "6f1c" (ACTIVE_BATTLES pending);
        ELO_FILE := ELO_FILE pending |}) /\
  (submit_result roster pow round1 "6f1c" "cyd" pending).2.(ACTIVE_BATTLES)
    !! "6f1c" = None /\
  _load_state roster (submit_result roster pow round1 "6f1c" "cyd" pending).2.(ELO_FILE)
  = _load_state roster (ELO_FILE pending).
Proof.
  apply (invalid_winner_consumes_token roster pow round1 pending "6f1c"
           {| battle_winner := None; model_a := "ada"; model_b := "bob" |} "cyd").
  - vm_compute. reflexivity.
  - discriminate.
  - discriminate.
Defined.

Definition first_comparison : comparison :=
  {| battle_id := "6f1c"; category := "pun";
     contestants :=
       [ {| contestant_id := "ada"; contestant_joke := "pa2";
            contestant_rank := Some 1 |};
         {| contestant_id := "bob"; contestant_joke := "pb1";
            contestant_rank := Some 2 |} ] |}.

Lemma select_battle_contestants_witness :
  exists first second models,
    contestants first_comparison = [first; second] /\
    CATEGORY_INDEX roster jokes !! category first_comparison = Some models /\
    (exists i j, i <> j /\ models !! i = Some (contestant_id first) /\
                 models !! j = Some (contestant_id second)) /\
    (NoDup roster -> contestant_id first <> contestant_id second) /\
    contestant_id first ∈ models /\
    contestant_id second ∈ models /\
    (exists pool, jokes_of jokes (contestant_id first) (category first_comparison)
                  = Some pool /\ pool <> [] /\ contestant_joke first ∈ pool) /\
    (exists pool, jokes_of jokes (contestant_id second) (category first_comparison)
                  = Some pool /\ pool <> [] /\ contestant_joke second ∈ pool).
Proof.
  apply (select_battle_contestants roster jokes round1 first_draws fresh).
  vm_compute. reflexivity.
Defined.

Lemma roster_NoDup : NoDup roster.
Proof. repeat constructor; rewrite ?elem_of_cons, ?elem_of_nil; intuition discriminate. Qed.

Lemma save_load_roundtrip_witness :
  _load_state roster (Some (_save_state (_load_state roster (ELO_FILE voted))))
  = _load_state roster (ELO_FILE voted).
Proof.
  apply (save_load_roundtrip roster).
  intros m Hm. unfold roster in Hm.
  rewrite !elem_of_cons, elem_of_nil in Hm.
  destruct Hm as [->|[->|[->|[]]]]; vm_compute; eauto.
Defined.

(** The leaderboard after the first vote, with the order facts spelled out. *)
Lemma leaderboard_sorted_ranked_witness :
  sorted_desc (stored_elos (ELO_FILE voted))
    = [("bob", 1516%float); ("cyd", 1500%float); ("ada", 1484%float)] /\
  StronglySorted ge_rating (sorted_desc (stored_elos (ELO_FILE voted))) /\
  entry_rank <$> build_leaderboard round1 (stored_elos (ELO_FILE voted))
                                   (stored_votes (ELO_FILE voted))
    = [1; 2; 3].
Proof.
  destruct (leaderboard_sorted_ranked roster round1 (stored_elos (ELO_FILE voted))
              (stored_votes (ELO_FILE voted)))
    as (_ & Hsorted & _ & Hranks & _).
  split; [vm_compute; reflexivity|].
  split; [|exact Hranks].
  apply Hsorted. vm_compute. repeat constructor.
Defined.

(** The index of the arena is not empty, so a battle is always returned. *)
Lemma select_battle_no_category_iff_empty_witness :
  exists c, (select_battle roster jokes round1 first_draws voted).1 = Ok c.
Proof.
  destruct (select_battle_no_category_iff_empty roster jokes round1)
    as (_ & Hsome & _).
  apply Hsome. intros E.
  apply (f_equal (fun m : gmap string (list string) => m !! "pun")) in E.
  vm_compute in E. discriminate.
Defined.

Lemma select_battle_registers_witness :
  exists first second,
    contestants first_comparison = [first; second] /\
    battle_id first_comparison = "6f1c" /\
    ACTIVE_BATTLES pending =
      <[ "6f1c" := {| battle_winner := None;
                      model_a := contestant_id first;
                      model_b := contestant_id second |}]> (ACTIVE_BATTLES fresh) /\
    ELO_FILE pending = ELO_FILE fresh /\
    let state := _load_state roster (ELO_FILE fresh) in
    let rank_lookup :=
      rank_lookup_of (build_leaderboard round1 (elos state) (votes state)) in
    contestant_rank first = Dict.get rank_lookup (contestant_id first) /\
    contestant_rank second = Dict.get rank_lookup (contestant_id second).
Proof.
  apply (select_battle_registers roster jokes round1 first_draws fresh
           first_comparison pending).
  vm_compute. reflexivity.
Defined.

Lemma category_index_entries_witness :
  2 <= length ["ada"; "cyd"] /\
  ["ada"; "cyd"] = filter (fun m => has_jokes jokes "riddle" m = true) roster /\
  (forall m, m ∈ ["ada"; "cyd"] <->
     m ∈ roster /\ exists pool, jokes_of jokes m "riddle" = Some pool /\ pool <> []).
Proof.
  apply (category_index_entries roster jokes "riddle" ["ada"; "cyd"]).
  vm_compute. reflexivity.
Defined.

(** [ada] and [bob] are tied and keep the order of the ratings map. *)
Lemma leaderboard_ties_keep_order_witness :
  entry_model <$>
    build_leaderboard round1
      [("ada", 1500%float); ("bob", 1500%float); ("cyd", 1484%float)] []
  = ["ada"; "bob"; "cyd"].
Proof.
  apply (leaderboard_ties_keep_order round1
           [("ada", 1500%float); ("bob", 1500%float); ("cyd", 1484%float)] []).
  - repeat constructor.
  - repeat constructor.
Defined.

(** *** Runs on a legacy file and on a roster with a repeated row *)

(** A rating file in the legacy format, with a model no longer on the
    roster, and the first battle pending. *)
Definition legacy : system :=
  {| ACTIVE_BATTLES := ACTIVE_BATTLES pending;
     ELO_FILE := Some (LegacyDoc [("old", 1400%float); ("ada", 1500%float)]) |}.

Definition legacy_voted : system :=
  (submit_result roster pow round1 "6f1c" "ada" legacy).2.

Definition other_draws : draws :=
  {| draw_category := 0; draw_first := 1; draw_second := 0;
     draw_joke_a := 0; draw_joke_b := 0; uuid4 := "9a2e" |}.

Example legacy_file_after_vote :
  ELO_FILE legacy_voted
  = Some (StateDoc
            [("old", 1400%float); ("ada", 1516%float);
             ("bob", 1484%float); ("cyd", 1500%float)]
            (Some [("ada", 1%Z); ("bob", 0%Z); ("cyd", 0%Z)])
            (Some 1%Z)).
Proof. vm_compute. reflexivity. Qed.

Lemma only_votes_write_file_witness :
  ELO_FILE (handle roster jokes pow round1
              (PostBattleResult (Some "6f1c") (Some "cyd")) legacy).2
  = ELO_FILE legacy.
Proof.
  apply (only_votes_write_file roster jokes pow round1
           (PostBattleResult (Some "6f1c") (Some "cyd")) legacy).
  vm_compute. reflexivity.
Defined.

Lemma vote_then_leaderboard_agree_witness :
  api_leaderboard roster round1 voted
  = (RespLeaderboard
       [ mkEntry 1 "bob" 1516 1; mkEntry 2 "cyd" 1500 0; mkEntry 3 "ada" 1484 0 ]
       1, voted).
Proof.
  apply (vote_then_leaderboard_agree roster pow round1 "6f1c" "bob" pending).
  vm_compute. reflexivity.
Defined.

Definition some_requests : list request :=
  [ GetLeaderboard;
    GetBattle other_draws;
    PostBattleResult (Some "9a2e") (Some "cyd");
    PostBattleResult (Some "9a2e") (Some "cyd");
    PostBattleResult None (Some "ada") ].

Lemma votes_sum_is_total_witness :
  votes_balanced roster (ELO_FILE (run roster jokes pow round1 some_requests legacy).2)
  /\ votes_balanced roster None.
Proof.
  apply (votes_sum_is_total roster jokes pow round1 some_requests legacy).
  vm_compute. reflexivity.
Defined.

Lemma pending_battle_stays_witness :
  ACTIVE_BATTLES (run roster jokes pow round1 some_requests pending).2 !! "6f1c"
  = Some {| battle_winner := None; model_a := "ada"; model_b := "bob" |}.
Proof.
  apply (pending_battle_stays roster jokes pow round1 "6f1c").
  - vm_compute. reflexivity.
  - unfold some_requests. repeat constructor; simpl; try tauto; discriminate.
Defined.

Lemma vote_writes_current_format_witness :
  exists elos' votes',
    ELO_FILE legacy_voted
    = Some (StateDoc elos' (Some votes')
                     (Some (stored_total (ELO_FILE legacy) + 1)%Z)) /\
    (forall m, m ∈ roster ->
       is_Some (Dict.get elos' m) /\ is_Some (Dict.get votes' m)) /\
    (forall k, is_Some (Dict.get (stored_elos (ELO_FILE legacy)) k) ->
       is_Some (Dict.get elos' k)) /\
    (forall k, is_Some (Dict.get (stored_votes (ELO_FILE legacy)) k) ->
       is_Some (Dict.get votes' k)).
Proof.
  apply (vote_writes_current_format roster pow round1 "6f1c" "ada" legacy
           [ mkEntry 1 "ada" 1516 1; mkEntry 2 "cyd" 1500 0;
             mkEntry 3 "bob" 1484 0; mkEntry 4 "old" 1400 0 ] 1%Z).
  vm_compute. reflexivity.
Defined.

Lemma contestant_rank_on_leaderboard_witness :
  let state := _load_state roster (ELO_FILE voted) in
  exists i e,
    build_leaderboard round1 (elos state) (votes state) !! i = Some e /\
    entry_model e = "cyd" /\
    Some 2 = Some (entry_rank e) /\
    entry_rank e = S i.
Proof.
  apply (contestant_rank_on_leaderboard roster jokes round1 other_draws voted
           {| battle_id := "9a2e"; category := "riddle";
              contestants :=
                [ {| contestant_id := "cyd"; contestant_joke := "rc1";
                     contestant_rank := Some 2 |};
                  {| contestant_id := "ada"; contestant_joke := "ra1";
                     contestant_rank := Some 3 |} ] |}
           {| contestant_id := "cyd"; contestant_joke := "rc1";
              contestant_rank := Some 2 |}).
  - vm_compute. reflexivity.
  - left.
Defined.

Lemma load_appends_missing_roster_witness :
  elos (_load_state roster (ELO_FILE legacy))
  = stored_elos (ELO_FILE legacy) ++
    ((fun m => (m, 1500%float)) <$>
       filter (fun m => Dict.get (stored_elos (ELO_FILE legacy)) m = None) roster) /\
  votes (_load_state roster (ELO_FILE legacy))
  = stored_votes (ELO_FILE legacy) ++
    ((fun m => (m, 0%Z)) <$>
       filter (fun m => Dict.get (stored_votes (ELO_FILE legacy)) m = None) roster).
Proof. apply (load_appends_missing_roster roster (ELO_FILE legacy) roster_NoDup). Defined.

Example legacy_loaded :
  elos (_load_state roster (ELO_FILE legacy))
  = [("old", 1400%float); ("ada", 1500%float);
     ("bob", 1500%float); ("cyd", 1500%float)].
Proof. vm_compute. reflexivity. Qed.

Lemma fresh_leaderboard_is_roster_witness :
  let s' := (run roster jokes pow round1 some_requests
               {| ACTIVE_BATTLES := ∅; ELO_FILE := None |}).2 in
  let state := _load_state roster (ELO_FILE s') in
  Dict.keys (elos state) = roster /\
  Dict.keys (votes state) = roster /\
  entry_model <$> build_leaderboard round1 (elos state) (votes state) ≡ₚ roster.
Proof.
  apply (fresh_leaderboard_is_roster roster jokes pow round1 _ ∅ roster_NoDup).
Defined.

Lemma small_roster_no_battle_witness :
  select_battle ["ada"] jokes round1 first_draws fresh
  = (Raise NoEligibleCategory, fresh).
Proof.
  apply (small_roster_no_battle ["ada"] jokes round1 first_draws fresh).
  simpl. lia.
Defined.

(** [ada] is on the roster twice: the battle drawn pairs it with itself. *)
Definition twice : list string := ["ada"; "ada"].

Definition twice_pending : system :=
  (api_battle twice jokes round1 first_draws fresh).2.

Example twice_battle :
  ACTIVE_BATTLES twice_pending !! "6f1c"
  = Some {| battle_winner := None; model_a := "ada"; model_b := "ada" |}.
Proof. vm_compute. reflexivity. Qed.

Lemma same_model_twice_cannot_be_decided_witness :
  submit_result twice pow round1 "6f1c" "ada" twice_pending
  = (RespException KeyError_pop_empty_set,
     {| ACTIVE_BATTLES := delete "6f1c" (ACTIVE_BATTLES twice_pending);
        ELO_FILE := ELO_FILE twice_pending |}).
Proof.
  apply (same_model_twice_cannot_be_decided twice pow round1 "6f1c"
           {| battle_winner := None; model_a := "ada"; model_b := "ada" |}
           twice_pending).
  - vm_compute. reflexivity.
  - reflexivity.
Defined.

Lemma issued_battle_can_be_decided_witness :
  let state := _load_state roster (ELO_FILE fresh) in
  exists first second ra rb,
    contestants first_comparison = [first; second] /\
    Dict.get (elos state) (contestant_id first) = Some ra /\
    Dict.get (elos state) (contestant_id second) = Some rb /\
    forall ct, ct ∈ contestants first_comparison -> contestant_id ct <> "" ->
      let resp :=
        (api_battle_result roster pow round1
           (Some (battle_id first_comparison)) (Some (contestant_id ct)) pending).1 in
      (powers_defined pow ra rb ->
       exists leaderboard,
         resp = RespLeaderboard leaderboard (total_votes state + 1)%Z) /\
      (~ powers_defined pow ra rb -> resp = RespException OverflowError).
Proof.
  apply (issued_battle_can_be_decided roster jokes pow round1 first_draws fresh
           first_comparison pending roster_NoDup).
  - vm_compute. reflexivity.
  - discriminate.
Defined.

Lemma unissued_token_is_unknown_witness :
  let s := (run roster jokes pow round1 some_requests (start None)).2 in
  submit_result roster pow round1 "6f1c" "ada" s = (RespError UnknownToken, s).
Proof.
  apply (unissued_token_is_unknown roster jokes pow round1 None some_requests
           "6f1c" "ada").
  unfold some_requests. repeat constructor; simpl; try tauto; discriminate.
Defined.



Example some_responses :
  (run roster jokes pow round1 some_requests (start None)).1
  = [ RespLeaderboard
        [ mkEntry 1 "ada" 1500 0; mkEntry 2 "bob" 1500 0; mkEntry 3 "cyd" 1500 0 ] 0;
      RespBattle
        {| battle_id := "9a2e"; category := "riddle";
           contestants :=
             [ {| contestant_id := "cyd"; contestant_joke := "rc1";
                  contestant_rank := Some 3 |};
               {| contestant_id := "ada"; contestant_joke := "ra1";
                  contestant_rank := Some 1 |} ] |};
      RespLeaderboard
        [ mkEntry 1 "cyd" 1516 1; mkEntry 2 "bob" 1500 0; mkEntry 3 "ada" 1484 0 ] 1;
      RespError UnknownToken;
      RespError MissingField ].
Proof. vm_compute. reflexivity. Qed.

(** With a NaN among the ratings the order is the one the runs and the
    binary search leave: here [nan] first and 1.0 last, 3.0 and 2.0 between. *)
Example sorted_desc_with_nan :
  (sorted_desc [("ada", 1%float); ("bob", PrimFloat.nan);
                ("cyd", 2%float); ("dan", 3%float)]).*1
  = ["bob"; "dan"; "cyd"; "ada"].
Proof. vm_compute. reflexivity. Qed.

(** C6, a rating state for which the leaderboard is not in descending
    order.  One rating is NaN: on the reversed list [sorted] compares
    [nan < 2.0] and [1.0 < nan], both false, takes the list for one
    ascending run and returns the items as they were, so the model rated
    1.0 is ranked first and the model rated 2.0 last. *)
Lemma leaderboard_nan_not_descending :
  build_leaderboard round1
    [("ada", 1%float); ("bob", PrimFloat.nan); ("cyd", 2%float)] []
  = [ mkEntry 1 "ada" 1 0; mkEntry 2 "bob" PrimFloat.nan 0; mkEntry 3 "cyd" 2 0 ] /\
  FloatOrder.flt 1 2 = true /\
  ~ StronglySorted ge_rating
      (sorted_desc [("ada", 1%float); ("bob", PrimFloat.nan); ("cyd", 2%float)]).
Proof.
  split; [vm_compute; reflexivity|]. split; [vm_compute; reflexivity|].
  intros H. vm_compute in H. apply StronglySorted_inv in H as [_ H].
  apply Forall_cons in H as [_ H]. apply Forall_cons in H as [H _].
  vm_compute in H. discriminate.
Qed.

(** C7, a roster for which the two contestants do not differ: with [ada]
    listed twice, the battle drawn has [ada] on both sides. *)
Lemma select_battle_same_model_twice :
  exists c first second,
    (select_battle twice jokes round1 first_draws fresh).1 = Ok c /\
    contestants c = [first; second] /\
    contestant_id first = "ada" /\
    contestant_id second = "ada" /\
    contestant_id first = contestant_id second.
Proof.
  eexists _, _, _. split; [vm_compute; reflexivity|].
  simpl. repeat split; reflexivity.
Qed.

End Scenario.
